(** * fake-shelly: the CoAP status server (src/coap-server.js)

    A shallow embedding of [CoapServer]: the three custom option codecs it
    registers, the device identifier, the status responder, the request
    dispatcher, and the announcer with its re-broadcast timer, together with
    the part of the JavaScript runtime these rely on (string to integer
    parsing, 16-bit buffer access, timers, promise continuations).

    Conventions.
    - A JavaScript string is a [string] holding its UTF-8 bytes, so that
      [Buffer.from(s)] is [list_byte_of_string s].
    - An integer-valued Number is a [Z]; [NaN] is kept apart in [number].
    - Code that can throw returns a [result].
    - The server object and everything it acts on (the device, the servers
      of the transport, the timeouts, the pending promises, what was handed
      to the transport) are the fields of one [World]; a method is a
      function on worlds, and the event loop is [step].
    - The transport is a collaborator: a response or request object records
      the option values it is given, and [close], [removeListener] and
      [clearTimeout] do not throw. The device is an emitter in the style of
      eventemitter3, which the server extends: a listener is registered
      once per call of [on], and [removeListener] with a function and a
      context removes every registration of that pair. *)

From Stdlib Require Import ZArith List String Ascii Bool Lia.
From Stdlib Require Import Strings.Byte.
Import ListNotations.

Open Scope string_scope.
Open Scope list_scope.
Open Scope Z_scope.

(* ================================================================= *)
(** ** Runtime values *)

Inductive error : Type :=
| ERR_OUT_OF_RANGE
| ERR_BUFFER_OUT_OF_BOUNDS
| ERR_INVALID_ARG_TYPE
| BindError (code : string).

Inductive result (A : Type) : Type :=
| Ok (a : A)
| Throw (e : error).

Arguments Ok {A} a.
Arguments Throw {A} e.

Definition bind {A B : Type} (m : result A) (k : A -> result B) : result B :=
  match m with
  | Ok a => k a
  | Throw e => Throw e
  end.

(** What integer parsing returns: an integer or NaN. *)
Inductive number : Type :=
| NaN
| Int (z : Z).

(** The values handed to an option encoder ("string-or-integer"). *)
Inductive prim : Type :=
| PNum (n : Z)
| PStr (s : string).

Definition Buffer : Type := list byte.

(* ================================================================= *)
(** ** Number to string *)

Module Decimal.

Definition digit_char (d : Z) : ascii :=
  ascii_of_N (Z.to_N (48 + d)).

(** Decimal digits of a non-negative integer, most significant first,
    pushed in front of [acc]. [fuel] bounds the number of digits. *)
Fixpoint digits_onto (fuel : nat) (n : Z) (acc : string) : string :=
  match fuel with
  | O => acc
  | S fuel' =>
      let acc' := String (digit_char (n mod 10)) acc in
      if n <? 10 then acc' else digits_onto fuel' (n / 10) acc'
  end.

Definition digit_fuel (n : Z) : nat := S (Z.to_nat (Z.log2 n)).

Definition of_nonneg (n : Z) : string := digits_onto (digit_fuel n) n "".

(** Drop the zeros at the end of a digit string, keeping one digit. *)
Fixpoint strip_zeros (s : string) : string :=
  match s with
  | EmptyString => EmptyString
  | String c rest =>
      match strip_zeros rest with
      | EmptyString => if Ascii.eqb c "0" then EmptyString else String c EmptyString
      | kept => String c kept
      end
  end.

Definition significand (n : Z) : string :=
  match of_nonneg n with
  | String c rest => String c (strip_zeros rest)
  | EmptyString => EmptyString
  end.

End Decimal.

(** [Number::toString] on an integer value. Below 10^21 in magnitude the
    text is the plain decimal numeral. From 10^21 on the runtime prints
    exponent notation, [d.ddde+k]; the digits written here are those of the
    integer itself, which is what the runtime prints when the integer is a
    short multiple of a power of ten. (Beyond 2^53 the runtime rounds the
    low digits of a numeral; the rounded and the exact numeral read back as
    values on the same side of every bound used below.) *)
Definition Number_toString (n : Z) : string :=
  let a := Z.abs n in
  let sign := if n <? 0 then "-" else "" in
  if a <? 10 ^ 21 then (sign ++ Decimal.of_nonneg a)%string
  else
    let e := Z.of_nat (String.length (Decimal.of_nonneg a)) - 1 in
    let mant :=
      match Decimal.significand a with
      | String d EmptyString => String d EmptyString
      | String d more => String d ("." ++ more)%string
      | EmptyString => EmptyString
      end in
    (sign ++ mant ++ "e+" ++ Decimal.of_nonneg e)%string.

Definition ToString (v : prim) : string :=
  match v with
  | PNum n => Number_toString n
  | PStr s => s
  end.

(* ================================================================= *)
(** ** parseInt *)

(** White space and line terminators of the language, in their UTF-8
    form: TAB, LF, VT, FF, CR, SP; U+00A0; U+1680, U+2000 to U+200A,
    U+2028, U+2029, U+202F, U+205F, U+3000 and U+FEFF. *)
Definition space1 (c1 : ascii) : bool :=
  let a := N_of_ascii c1 in
  ((9 <=? a) && (a <=? 13) || (a =? 32))%N.

Definition space2 (c1 c2 : ascii) : bool :=
  ((N_of_ascii c1 =? 194) && (N_of_ascii c2 =? 160))%N.

Definition space3 (c1 c2 c3 : ascii) : bool :=
  let a := N_of_ascii c1 in
  let b := N_of_ascii c2 in
  let c := N_of_ascii c3 in
  ((a =? 225) && (b =? 154) && (c =? 128)
   || (a =? 226) && (b =? 128)
      && ((128 <=? c) && (c <=? 138) || (c =? 168) || (c =? 169) || (c =? 175))
   || (a =? 226) && (b =? 129) && (c =? 159)
   || (a =? 227) && (b =? 128) && (c =? 128)
   || (a =? 239) && (b =? 187) && (c =? 191))%N.

(** Skip leading white space. *)
Fixpoint trim_start (s : string) : string :=
  match s with
  | EmptyString => s
  | String c1 s1 =>
      if space1 c1 then trim_start s1
      else
        match s1 with
        | EmptyString => s
        | String c2 s2 =>
            if space2 c1 c2 then trim_start s2
            else
              match s2 with
              | EmptyString => s
              | String c3 s3 =>
                  if space3 c1 c2 c3 then trim_start s3 else s
              end
        end
  end.

(** Value of a character as a digit of radix [R], if it is one. *)
Definition digit_value (R : Z) (c : ascii) : option Z :=
  let n := Z.of_N (N_of_ascii c) in
  let d :=
    if (48 <=? n) && (n <=? 57) then Some (n - 48)
    else if (97 <=? n) && (n <=? 122) then Some (n - 87)
    else if (65 <=? n) && (n <=? 90) then Some (n - 55)
    else None in
  match d with
  | Some v => if v <? R then Some v else None
  | None => None
  end.

(** Value of the longest prefix of radix-[R] digits, continuing from [acc]. *)
Fixpoint scan_digits (R : Z) (acc : Z) (s : string) : Z :=
  match s with
  | EmptyString => acc
  | String c rest =>
      match digit_value R c with
      | Some d => scan_digits R (acc * R + d) rest
      | None => acc
      end
  end.

(** The same, requiring at least one digit. *)
Definition leading_digits (R : Z) (s : string) : option Z :=
  match s with
  | EmptyString => None
  | String c rest =>
      match digit_value R c with
      | Some d => Some (scan_digits R d rest)
      | None => None
      end
  end.

(** [parseInt(string)] with no radix argument, on a string. *)
Definition StringToInt (input : string) : number :=
  let s := trim_start input in
  let '(sign, s) :=
    match s with
    | String "-" rest => (-1, rest)
    | String "+" rest => (1, rest)
    | _ => (1, s)
    end in
  let '(R, s) :=
    match s with
    | String "0" (String "x" rest) => (16, rest)
    | String "0" (String "X" rest) => (16, rest)
    | _ => (10, s)
    end in
  match leading_digits R s with
  | Some m => Int (sign * m)
  | None => NaN
  end.

(** [parseInt(v)]: the argument is first converted to a string. *)
Definition parseInt (v : prim) : number := StringToInt (ToString v).

(* ================================================================= *)
(** ** Buffers *)

Definition ToUint8 (z : Z) : byte :=
  match Byte.of_N (Z.to_N (z mod 256)) with
  | Some b => b
  | None => x00
  end.

Definition byte_value (b : byte) : Z := Z.of_N (Byte.to_N b).

Definition Buffer_alloc (size : nat) : Buffer := repeat x00 size.

Definition Buffer_from (s : string) : Buffer := list_byte_of_string s.

Definition Buffer_toString (buf : Buffer) : string := string_of_list_byte buf.

Fixpoint write_at (buf : Buffer) (i : nat) (b : byte) : Buffer :=
  match buf, i with
  | [], _ => []
  | _ :: rest, O => b :: rest
  | h :: rest, S j => h :: write_at rest j b
  end.

(** [buf.writeUInt16BE(value, offset)]: a value above 65535 or below 0 is
    refused; NaN passes both comparisons and is stored as zero bits. *)
Definition writeUInt16BE (value : number) (offset : nat) (buf : Buffer)
  : result Buffer :=
  let store (z : Z) :=
    if (List.length buf <? offset + 2)%nat then Throw ERR_BUFFER_OUT_OF_BOUNDS
    else Ok (write_at (write_at buf offset (ToUint8 (Z.shiftr z 8)))
                      (S offset) (ToUint8 z)) in
  match value with
  | NaN => store 0
  | Int z =>
      if (z >? 65535) || (z <? 0) then Throw ERR_OUT_OF_RANGE else store z
  end.

(** [buf.readUInt16BE(offset)]. *)
Definition readUInt16BE (offset : nat) (buf : Buffer) : result Z :=
  match nth_error buf offset, nth_error buf (S offset) with
  | Some first, Some last => Ok (byte_value first * 2 ^ 8 + byte_value last)
  | _, _ => Throw ERR_BUFFER_OUT_OF_BOUNDS
  end.

(* ================================================================= *)
(** ** The option registry of the transport and [registerOptions] *)

Definition COAP_MULTICAST_ADDRESS : string := "224.0.1.187".
Definition GLOBAL_DEVID : string := "3332".
Definition STATUS_VALIDITY : string := "3412".
Definition STATUS_SERIAL : string := "3420".

(** An entry of the registry: the two functions given to
    [coap.registerOption]. *)
Record codec : Type := {
  toBinary : prim -> result Buffer;
  fromBinary : Buffer -> result prim
}.

(** [str => Buffer.from(str)] and [buf => buf.toString()]. [Buffer.from]
    refuses a number. *)
Definition devid_codec : codec := {|
  toBinary := fun str =>
    match str with
    | PStr s => Ok (Buffer_from s)
    | PNum _ => Throw ERR_INVALID_ARG_TYPE
    end;
  fromBinary := fun buf => Ok (PStr (Buffer_toString buf))
|}.

(** The encoder and decoder registered for both numeric options. *)
Definition uint16_codec : codec := {|
  toBinary := fun str =>
    let buf := Buffer_alloc 2 in
    writeUInt16BE (parseInt str) 0 buf;
  fromBinary := fun buf =>
    bind (readUInt16BE 0 buf) (fun n => Ok (PNum n))
|}.

(** Process-wide state: the registry of the transport and the static flag
    [CoapServer._optionsRegistered]. *)
Record Process : Type := {
  registry : list (string * codec);
  _optionsRegistered : bool
}.

Definition fresh_process : Process :=
  {| registry := []; _optionsRegistered := false |}.

Definition registerOption (name : string) (c : codec) (p : Process) : Process :=
  {| registry := (name, c) :: registry p;
     _optionsRegistered := _optionsRegistered p |}.

Definition registerOptions (p : Process) : Process :=
  if _optionsRegistered p then p
  else
    let p := registerOption GLOBAL_DEVID devid_codec p in
    let p := registerOption STATUS_VALIDITY uint16_codec p in
    let p := registerOption STATUS_SERIAL uint16_codec p in
    {| registry := registry p; _optionsRegistered := true |}.

Fixpoint lookup_codec (name : string) (r : list (string * codec)) : option codec :=
  match r with
  | [] => None
  | (k, c) :: rest => if String.eqb k name then Some c else lookup_codec name rest
  end.

(** Encoding and decoding an option value through the registry, as the
    transport does when it builds or reads a packet. *)
Definition encode_option (p : Process) (name : string) (v : prim)
  : option (result Buffer) :=
  option_map (fun c => toBinary c v) (lookup_codec name (registry p)).

Definition decode_option (p : Process) (name : string) (buf : Buffer)
  : option (result prim) :=
  option_map (fun c => fromBinary c buf) (lookup_codec name (registry p)).

(* ================================================================= *)
(** ** Messages *)

Inductive optvalue : Type :=
| OPrim (v : prim)
| OBuffers (bs : list Buffer).

Definition options : Type := list (string * optvalue).

Fixpoint get_option (name : string) (opts : options) : option optvalue :=
  match opts with
  | [] => None
  | (k, v) :: rest => if String.eqb k name then Some v else get_option name rest
  end.

(** The response object handed to a request listener. [res_body] is set
    once [end] was called. *)
Record ServerResponse : Type := {
  res_options : options;
  res_body : option string
}.

Definition fresh_response : ServerResponse :=
  {| res_options := []; res_body := None |}.

(** [res.setOption(name, value)]: the option replaces any earlier one of
    that name. *)
Definition setOption (name : string) (v : optvalue) (res : ServerResponse)
  : ServerResponse :=
  {| res_options :=
       (filter (fun o => negb (String.eqb (fst o) name)) (res_options res)
        ++ [(name, v)])%list;
     res_body := res_body res |}.

Record IncomingMessage : Type := {
  method : string;
  url : string;
  req_payload : Buffer
}.

(** The outgoing request built by [coap.request]. *)
Record OutgoingRequest : Type := {
  host : string;
  pathname : string;
  req_options : options;
  multicast : bool;
  multicastTimeout : Z;
  statusCode : option string;
  req_body : option string
}.

(** What is handed to the transport, with the time of the send. *)
Inductive Sent : Type :=
| Announced (at_ms : Z) (req : OutgoingRequest)
| Responded (at_ms : Z) (res : ServerResponse).

Definition sent_options (m : Sent) : options :=
  match m with
  | Announced _ req => req_options req
  | Responded _ res => res_options res
  end.

(** [s.split(sep)] for a one-character separator. *)
Fixpoint split (sep : ascii) (s : string) : list string :=
  match s with
  | EmptyString => [EmptyString]
  | String c rest =>
      if Ascii.eqb c sep then EmptyString :: split sep rest
      else
        match split sep rest with
        | part :: parts => String c part :: parts
        | [] => [String c EmptyString]
        end
  end.

Definition truthy (s : string) : bool :=
  match s with
  | EmptyString => false
  | String _ _ => true
  end.

Definition setUriPath (res : ServerResponse) (uri : string) : ServerResponse :=
  let parts := split "/" uri in
  let buffers :=
    fold_left
      (fun buffers p => if truthy p then (buffers ++ [Buffer_from p])%list else buffers)
      parts [] in
  if (0 <? List.length buffers)%nat
  then setOption "Uri-Path" (OBuffers buffers) res
  else res.

(* ================================================================= *)
(** ** The server and the world it runs in *)

(** The status payload of the device and its serialisation by
    [JSON.stringify] belong to the collaborators. *)
Class Serializer (Payload : Type) : Type :=
  JSON_stringify : Payload -> string.

Section Server.

Context {Payload : Type} {serializer : Serializer Payload}.

Record Device : Type := {
  type : string;
  id : string;
  getCoapStatusPayload : Payload
}.

Definition getDeviceIdentifier (device : Device) : string :=
  (type device ++ "#" ++ id device ++ "#1")%string.

(** A server made by [coap.createServer]. *)
Inductive EndpointState : Type := Binding | Listening | Failed | Closed.

Record Endpoint : Type := {
  multicastAddress : option string;
  ep_state : EndpointState;
  ep_reported : bool;          (* the listen callback has run *)
  request_listener : bool      (* the handler is attached to 'request' *)
}.

(** The fields of a [CoapServer] instance; servers and the timeout are
    held by handle. [this.device] refers to the device object of the
    world. *)
Record CoapServer : Type := {
  server : option nat;
  multicastServer : option nat;
  _serial : Z;
  _statusBroadcastTimeout : option nat
}.

(** A promise returned by [_startServer] or [_startMulticastServer]. *)
Inductive promise : Type :=
| Resolved
| AwaitListen (ep : nat).

(** A [start()] whose continuation has not run yet: the listen callbacks
    its [Promise.all] still waits for, and its outcome once settled
    ([Some None]: fulfilled, [Some (Some e)]: rejected with [e]). *)
Record StartCall : Type := {
  awaiting : list nat;
  outcome : option (option error)
}.

Record World : Type := {
  this : CoapServer;
  process : Process;
  device : Device;
  change_listeners : nat;        (* registrations on the device's 'change' *)
  endpoints : list Endpoint;
  now : Z;                       (* milliseconds *)
  timers : list (nat * Z);       (* pending timeouts: handle, due time *)
  next_timer : nat;
  starts : list StartCall;
  settled : list (option error); (* outcomes of finished start() calls *)
  wire : list Sent;              (* oldest first *)
  console : list string
}.

(** *** Field updates *)

Definition set_this (f : CoapServer -> CoapServer) (w : World) : World :=
  {| this := f (this w); process := process w; device := device w;
     change_listeners := change_listeners w; endpoints := endpoints w;
     now := now w; timers := timers w; next_timer := next_timer w;
     starts := starts w; settled := settled w; wire := wire w;
     console := console w |}.

Definition set_server (v : option nat) : World -> World :=
  set_this (fun s =>
    {| server := v; multicastServer := multicastServer s;
       _serial := _serial s;
       _statusBroadcastTimeout := _statusBroadcastTimeout s |}).

Definition set_multicastServer (v : option nat) : World -> World :=
  set_this (fun s =>
    {| server := server s; multicastServer := v;
       _serial := _serial s;
       _statusBroadcastTimeout := _statusBroadcastTimeout s |}).

Definition set__serial (v : Z) : World -> World :=
  set_this (fun s =>
    {| server := server s; multicastServer := multicastServer s;
       _serial := v;
       _statusBroadcastTimeout := _statusBroadcastTimeout s |}).

Definition set__statusBroadcastTimeout (v : option nat) : World -> World :=
  set_this (fun s =>
    {| server := server s; multicastServer := multicastServer s;
       _serial := _serial s;
       _statusBroadcastTimeout := v |}).

Definition set_device (d : Device) (w : World) : World :=
  {| this := this w; process := process w; device := d;
     change_listeners := change_listeners w; endpoints := endpoints w;
     now := now w; timers := timers w; next_timer := next_timer w;
     starts := starts w; settled := settled w; wire := wire w;
     console := console w |}.

Definition set_change_listeners (n : nat) (w : World) : World :=
  {| this := this w; process := process w; device := device w;
     change_listeners := n; endpoints := endpoints w;
     now := now w; timers := timers w; next_timer := next_timer w;
     starts := starts w; settled := settled w; wire := wire w;
     console := console w |}.

Definition set_endpoints (l : list Endpoint) (w : World) : World :=
  {| this := this w; process := process w; device := device w;
     change_listeners := change_listeners w; endpoints := l;
     now := now w; timers := timers w; next_timer := next_timer w;
     starts := starts w; settled := settled w; wire := wire w;
     console := console w |}.

Definition set_now (t : Z) (w : World) : World :=
  {| this := this w; process := process w; device := device w;
     change_listeners := change_listeners w; endpoints := endpoints w;
     now := t; timers := timers w; next_timer := next_timer w;
     starts := starts w; settled := settled w; wire := wire w;
     console := console w |}.

Definition set_timers (l : list (nat * Z)) (w : World) : World :=
  {| this := this w; process := process w; device := device w;
     change_listeners := change_listeners w; endpoints := endpoints w;
     now := now w; timers := l; next_timer := next_timer w;
     starts := starts w; settled := settled w; wire := wire w;
     console := console w |}.

Definition set_next_timer (n : nat) (w : World) : World :=
  {| this := this w; process := process w; device := device w;
     change_listeners := change_listeners w; endpoints := endpoints w;
     now := now w; timers := timers w; next_timer := n;
     starts := starts w; settled := settled w; wire := wire w;
     console := console w |}.

Definition set_starts (l : list StartCall) (w : World) : World :=
  {| this := this w; process := process w; device := device w;
     change_listeners := change_listeners w; endpoints := endpoints w;
     now := now w; timers := timers w; next_timer := next_timer w;
     starts := l; settled := settled w; wire := wire w;
     console := console w |}.

Definition set_settled (l : list (option error)) (w : World) : World :=
  {| this := this w; process := process w; device := device w;
     change_listeners := change_listeners w; endpoints := endpoints w;
     now := now w; timers := timers w; next_timer := next_timer w;
     starts := starts w; settled := l; wire := wire w;
     console := console w |}.

Definition set_wire (l : list Sent) (w : World) : World :=
  {| this := this w; process := process w; device := device w;
     change_listeners := change_listeners w; endpoints := endpoints w;
     now := now w; timers := timers w; next_timer := next_timer w;
     starts := starts w; settled := settled w; wire := l;
     console := console w |}.

Definition set_console (l : list string) (w : World) : World :=
  {| this := this w; process := process w; device := device w;
     change_listeners := change_listeners w; endpoints := endpoints w;
     now := now w; timers := timers w; next_timer := next_timer w;
     starts := starts w; settled := settled w; wire := wire w;
     console := l |}.

(** *** Runtime and transport primitives *)

(** [setTimeout(callback, delay)] returns a new handle; the callback is
    [_broadcastStatus] bound to the server whenever the server calls it, so
    a pending timeout is its handle and the time it is due. *)
Definition setTimeout (delay : Z) (w : World) : nat * World :=
  let h := next_timer w in
  (h, set_next_timer (S h) (set_timers (timers w ++ [(h, now w + delay)]) w)).

(** [clearTimeout(handle)]: nothing happens when the timeout has run or
    was cleared already. *)
Definition clearTimeout (h : nat) (w : World) : World :=
  set_timers (filter (fun t => negb (Nat.eqb (fst t) h)) (timers w)) w.

Definition console_log (line : string) (w : World) : World :=
  set_console (console w ++ [line]) w.

Fixpoint update_nth {A : Type} (i : nat) (f : A -> A) (l : list A) : list A :=
  match l, i with
  | [], _ => []
  | x :: rest, O => f x :: rest
  | x :: rest, S j => x :: update_nth j f rest
  end.

Definition update_endpoint (ep : nat) (f : Endpoint -> Endpoint) (w : World)
  : World :=
  set_endpoints (update_nth ep f (endpoints w)) w.

(** A server just made, its handler attached, its bind in flight. *)
Definition fresh_endpoint (address : option string) : Endpoint :=
  {| multicastAddress := address; ep_state := Binding;
     ep_reported := false; request_listener := true |}.

(** [coap.createServer(options).on('request', handler).listen(callback)];
    the handle is the position of the new server. *)
Definition createServer_listen (address : option string) (w : World)
  : nat * World :=
  let ep := List.length (endpoints w) in
  (ep, set_endpoints (endpoints w ++ [fresh_endpoint address]) w).

(** [server.close()] *)
Definition close (ep : nat) : World -> World :=
  update_endpoint ep (fun e =>
    {| multicastAddress := multicastAddress e; ep_state := Closed;
       ep_reported := ep_reported e;
       request_listener := request_listener e |}).

(** [server.removeListener('request', handler)] *)
Definition removeListener_request (ep : nat) : World -> World :=
  update_endpoint ep (fun e =>
    {| multicastAddress := multicastAddress e; ep_state := ep_state e;
       ep_reported := ep_reported e;
       request_listener := false |}).

(** [res.end(body)]: the response is completed and sent. *)
Definition res_end (body : string) (res : ServerResponse) (w : World)
  : World * ServerResponse :=
  let res := {| res_options := res_options res; res_body := Some body |} in
  (set_wire (wire w ++ [Responded (now w) res]) w, res).

(** [coap.request(options)] with the options the announcer gives. *)
Definition coap_request (opts : options) : OutgoingRequest :=
  {| host := COAP_MULTICAST_ADDRESS;
     pathname := "/cit/s";
     req_options := opts;
     multicast := true;
     multicastTimeout := 100;
     statusCode := None;
     req_body := None |}.

(** [req.statusCode = code] *)
Definition set_statusCode (code : string) (req : OutgoingRequest)
  : OutgoingRequest :=
  {| host := host req; pathname := pathname req;
     req_options := req_options req; multicast := multicast req;
     multicastTimeout := multicastTimeout req;
     statusCode := Some code; req_body := req_body req |}.

(** [req.end(body)] on an outgoing request: it is sent. *)
Definition req_end (body : string) (req : OutgoingRequest) (w : World)
  : World :=
  let req :=
    {| host := host req; pathname := pathname req;
       req_options := req_options req; multicast := multicast req;
       multicastTimeout := multicastTimeout req;
       statusCode := statusCode req; req_body := Some body |} in
  set_wire (wire w ++ [Announced (now w) req]) w.

(** *** The methods of [CoapServer] *)

(** [new CoapServer(device)] in a process [p], at time 0. *)
Definition constructor (device : Device) (p : Process) : World :=
  {| this := {| server := None; multicastServer := None; _serial := 1;
                _statusBroadcastTimeout := None |};
     process := registerOptions p;
     device := device;
     change_listeners := 0; endpoints := []; now := 0; timers := [];
     next_timer := 0; starts := []; settled := []; wire := [];
     console := [] |}.

Definition _startServer (w : World) : World * promise :=
  match server (this w) with
  | Some _ => (w, Resolved)
  | None =>
      let '(ep, w) := createServer_listen None w in
      (set_server (Some ep) w, AwaitListen ep)
  end.

Definition _startMulticastServer (w : World) : World * promise :=
  match multicastServer (this w) with
  | Some _ => (w, Resolved)
  | None =>
      let '(ep, w) := createServer_listen (Some COAP_MULTICAST_ADDRESS) w in
      (set_multicastServer (Some ep) w, AwaitListen ep)
  end.

(** [Promise.all(ps)]: fulfilled already when nothing is awaited. *)
Definition Promise_all (ps : list promise) : StartCall :=
  let waits :=
    flat_map (fun p => match p with
                       | Resolved => []
                       | AwaitListen ep => [ep]
                       end) ps in
  {| awaiting := waits;
     outcome := match waits with [] => Some None | _ => None end |}.

(** The synchronous part of [start()]; the [then] and [catch]
    continuations run from [drain]. *)
Definition start (w : World) : World :=
  let w := set_change_listeners (S (change_listeners w)) w in
  let '(w, p1) := _startServer w in
  let '(w, p2) := _startMulticastServer w in
  set_starts (starts w ++ [Promise_all [p1; p2]]) w.

(** [stop()]; it cancels no pending [start()]. *)
Definition stop (w : World) : World :=
  let w := set_change_listeners 0 w in
  let w :=
    match server (this w) with
    | Some ep => set_server None (removeListener_request ep (close ep w))
    | None => w
    end in
  let w :=
    match multicastServer (this w) with
    | Some ep =>
        set_multicastServer None (removeListener_request ep (close ep w))
    | None => w
    end in
  match _statusBroadcastTimeout (this w) with
  | Some h => set__statusBroadcastTimeout None (clearTimeout h w)
  | None => w
  end.

(** [this._serial++] is evaluated while the options are put together,
    before the request is made. *)
Definition _broadcastStatus (w : World) : World :=
  let w :=
    match _statusBroadcastTimeout (this w) with
    | Some h => clearTimeout h w
    | None => w
    end in
  let '(h, w) := setTimeout 30000 w in
  let w := set__statusBroadcastTimeout (Some h) w in
  let serial := _serial (this w) in
  let w := set__serial (serial + 1) w in
  let req :=
    coap_request
      [ (GLOBAL_DEVID, OPrim (PStr (getDeviceIdentifier (device w))));
        (STATUS_VALIDITY, OPrim (PNum 38400));
        (STATUS_SERIAL, OPrim (PNum serial)) ] in
  let req := set_statusCode "0.30" req in
  req_end (JSON_stringify (getCoapStatusPayload (device w))) req w.

Definition _deviceChangeHandler (w : World) : World := _broadcastStatus w.

Definition _handleStatusRequest (req : IncomingMessage) (res : ServerResponse)
                                (w : World)
  : result (World * ServerResponse) :=
  let w := console_log "GET /cit/s" w in
  let res := setUriPath res "/cit/s" in
  let res :=
    setOption GLOBAL_DEVID
              (OPrim (PStr (getDeviceIdentifier (device w)))) res in
  let res := setOption STATUS_VALIDITY (OPrim (PNum 38400)) res in
  let serial := _serial (this w) in
  let w := set__serial (serial + 1) w in
  let res := setOption STATUS_SERIAL (OPrim (PNum serial)) res in
  Ok (res_end (JSON_stringify (getCoapStatusPayload (device w))) res w).

(** The [catch] clause logs and throws the same error again; nothing
    the responder calls throws here. *)
Definition _requestHandler (req : IncomingMessage) (res : ServerResponse)
                           (w : World)
  : result (World * ServerResponse) :=
  let attempt :=
    if String.eqb (method req) "GET" && String.eqb (url req) "/cit/s"
    then _handleStatusRequest req res w
    else Ok (w, res) in
  match attempt with
  | Ok r => Ok r
  | Throw e => Throw e
  end.

(** *** The event loop *)

(** The effect of a listen callback on a pending [Promise.all]: the first
    rejection settles it, and so does the last fulfilment. *)
Definition settle (ep : nat) (err : option error) (c : StartCall) : StartCall :=
  match outcome c with
  | Some _ => c
  | None =>
      if existsb (Nat.eqb ep) (awaiting c) then
        match err with
        | Some e => {| awaiting := awaiting c; outcome := Some (Some e) |}
        | None =>
            let rest := filter (fun x => negb (Nat.eqb x ep)) (awaiting c) in
            {| awaiting := rest;
               outcome := match rest with [] => Some None | _ => None end |}
        end
      else c
  end.

(** The callback given to [listen] runs, at most once per server, with or
    without an error. Nothing here assumes that closing a server whose
    bind is still in flight keeps its callback from running. *)
Definition listen_callback (ep : nat) (err : option error) (w : World)
  : World :=
  match nth_error (endpoints w) ep with
  | None => w
  | Some e =>
      if ep_reported e then w
      else
        let w :=
          update_endpoint ep (fun e =>
            {| multicastAddress := multicastAddress e;
               ep_state :=
                 match ep_state e, err with
                 | Binding, None => Listening
                 | Binding, Some _ => Failed
                 | s, _ => s
                 end;
               ep_reported := true;
               request_listener := request_listener e |}) w in
        set_starts (map (settle ep err) (starts w)) w
  end.

(** [.then(() => { this._broadcastStatus() })] *)
Definition start_then (w : World) : World :=
  let w := _broadcastStatus w in
  set_settled (settled w ++ [None]) w.

(** [.catch(error => { this.stop(); throw error })] *)
Definition start_catch (e : error) (w : World) : World :=
  let w := stop w in
  set_settled (settled w ++ [Some e]) w.

Definition run_continuation (w : World) (c : StartCall) : World :=
  match outcome c with
  | Some None => start_then w
  | Some (Some e) => start_catch e w
  | None => w
  end.

Definition is_settled (c : StartCall) : bool :=
  match outcome c with
  | Some _ => true
  | None => false
  end.

(** The microtask checkpoint: the continuation of every settled
    [start()] runs, oldest first. *)
Definition drain (w : World) : World :=
  fold_left run_continuation
            (filter is_settled (starts w))
            (set_starts (filter (fun c => negb (is_settled c)) (starts w)) w).

(** The device takes a new state and emits 'change'. *)
Definition emit_change (d : Device) (w : World) : World :=
  let w := set_device d w in
  Nat.iter (change_listeners w) _deviceChangeHandler w.

(** A request arrives at a listening server. *)
Definition deliver (ep : nat) (req : IncomingMessage) (w : World) : World :=
  match nth_error (endpoints w) ep with
  | Some e =>
      match ep_state e, request_listener e with
      | Listening, true =>
          match _requestHandler req fresh_response w with
          | Ok (w', _) => w'
          | Throw _ => w
          end
      | _, _ => w
      end
  | None => w
  end.

Definition elapse (ms : Z) (w : World) : World :=
  set_now (now w + Z.max 0 ms) w.

(** A timeout that is due runs its callback, which is always
    [_broadcastStatus] bound to the server. *)
Definition timer_expiry (w : World) : World :=
  match find (fun t => snd t <=? now w) (timers w) with
  | Some (h, _) =>
      _broadcastStatus
        (set_timers (filter (fun t => negb (Nat.eqb (fst t) h)) (timers w)) w)
  | None => w
  end.

Inductive event : Type :=
| CallStart
| CallStop
| DeviceChange (d : Device)
| Inbound (ep : nat) (req : IncomingMessage)
| ListenCallback (ep : nat) (err : option error)
| Microtasks
| Elapse (ms : Z)
| TimerExpiry.

Definition step (w : World) (ev : event) : World :=
  match ev with
  | CallStart => start w
  | CallStop => stop w
  | DeviceChange d => emit_change d w
  | Inbound ep req => deliver ep req w
  | ListenCallback ep err => listen_callback ep err w
  | Microtasks => drain w
  | Elapse ms => elapse ms w
  | TimerExpiry => timer_expiry w
  end.

Definition run (evs : list event) (w : World) : World :=
  fold_left step evs w.

(** A server just constructed in a fresh process. *)
Definition init (device : Device) : World := constructor device fresh_process.

(** The StatusSerial value of a message handed to the transport. *)
Definition serial_of (m : Sent) : option optvalue :=
  get_option STATUS_SERIAL (sent_options m).

End Server.

(** A device whose status payload is a single integer; [JSON.stringify]
    renders it as its numeral. *)
#[export] Instance integer_payload : Serializer Z := Number_toString.

Definition sample_device : Device :=
  {| type := "SHSW-1"; id := "ABC123"; getCoapStatusPayload := 1 |}.

Definition sample_get : IncomingMessage :=
  {| method := "GET"; url := "/cit/s"; req_payload := [] |}.

(* ================================================================= *)
(** * Vocabulary of the properties *)

(** The decimal digits, and the strings made of them. *)
Definition is_digit (c : ascii) : bool :=
  let n := N_of_ascii c in ((48 <=? n) && (n <=? 57))%N.

Fixpoint all_digits (s : string) : bool :=
  match s with
  | EmptyString => true
  | String c rest => is_digit c && all_digits rest
  end.

(** No character of [s] is [sep]. *)
Fixpoint free_of (sep : ascii) (s : string) : bool :=
  match s with
  | EmptyString => true
  | String c rest => negb (Ascii.eqb c sep) && free_of sep rest
  end.

(** The two bytes of a 16-bit value, high byte first. *)
Definition uint16_be (z : Z) : Buffer := [ToUint8 (Z.shiftr z 8); ToUint8 z].


Section Vocabulary.

Context {Payload : Type} {serializer : Serializer Payload}.
Implicit Types (w : @World Payload) (d : @Device Payload).

Definition announcement (w : World) : OutgoingRequest :=
  {| host := COAP_MULTICAST_ADDRESS;
     pathname := "/cit/s";
     req_options :=
       [ (GLOBAL_DEVID, OPrim (PStr (getDeviceIdentifier (device w))));
         (STATUS_VALIDITY, OPrim (PNum 38400));
         (STATUS_SERIAL, OPrim (PNum (_serial (this w)))) ];
     multicast := true;
     multicastTimeout := 100;
     statusCode := Some "0.30";
     req_body := Some (JSON_stringify (getCoapStatusPayload (device w))) |}.

Definition without_timer (h : option nat) (l : list (nat * Z)) : list (nat * Z) :=
  match h with
  | Some h => filter (fun t => negb (Nat.eqb (fst t) h)) l
  | None => l
  end.

Definition closed_endpoint (e : Endpoint) : Endpoint :=
  {| multicastAddress := multicastAddress e; ep_state := Closed;
     ep_reported := ep_reported e; request_listener := false |}.

Definition close_at (h : option nat) (l : list Endpoint) : list Endpoint :=
  match h with
  | Some ep => update_nth ep closed_endpoint l
  | None => l
  end.

Fixpoint count_from (z : Z) (n : nat) : list Z :=
  match n with
  | O => []
  | S k => z :: count_from (z + 1) k
  end.

Definition numbered (zs : list Z) : list (option optvalue) :=
  map (fun k => Some (OPrim (PNum k))) zs.

(** [w'] comes from [w] by sending messages that carry the consecutive
    serial values starting at the counter of [w], the counter moving past
    them. *)
Definition draws w w' : Prop :=
  exists new,
    wire w' = wire w ++ new /\
    map serial_of new
    = numbered (count_from (_serial (this w)) (List.length new)) /\
    _serial (this w') = _serial (this w) + Z.of_nat (List.length new).


Definition shut (e : Endpoint) : Prop :=
  ep_state e = Closed /\ request_listener e = false.

(** Every server that was made is either shut or held in one of the two
    fields. *)
Definition ep_inv w : Prop :=
  forall ep e,
    nth_error (endpoints w) ep = Some e ->
    shut e \/ server (this w) = Some ep \/ multicastServer (this w) = Some ep.


Definition reported (err : option error) (e : Endpoint) : Endpoint :=
  {| multicastAddress := multicastAddress e;
     ep_state :=
       match ep_state e, err with
       | Binding, None => Listening
       | Binding, Some _ => Failed
       | s, _ => s
       end;
     ep_reported := true;
     request_listener := request_listener e |}.


(** The two servers are made together and dropped together. *)
Definition paired w : Prop :=
  server (this w) = None <-> multicastServer (this w) = None.

End Vocabulary.

(* ================================================================= *)
(** * Vocabulary of the further properties *)

(** The parts of a uri that [setUriPath] keeps: what stands between
    slashes, the empty parts left out. *)
Definition segments (uri : string) : list string :=
  filter truthy (split "/" uri).

(** The path with these parts: a slash in front of each. *)
Fixpoint join_path (parts : list string) : string :=
  match parts with
  | [] => EmptyString
  | part :: rest => String "/" (part ++ join_path rest)
  end.

(** Every character of [s] is a slash. *)
Fixpoint only_slashes (s : string) : bool :=
  match s with
  | EmptyString => true
  | String c rest => Ascii.eqb c "/" && only_slashes rest
  end.

(** A part as [setUriPath] stores one: not empty and with no slash. *)
Definition proper_part (part : string) : Prop :=
  truthy part = true /\ free_of "/" part = true.

(** The three option numbers this file registers. *)
Definition own_option (name : string) : bool :=
  String.eqb name GLOBAL_DEVID || String.eqb name STATUS_VALIDITY
  || String.eqb name STATUS_SERIAL.

(** [tail] can follow a numeral without being read as part of it: it is
    empty, or its first character is neither a digit nor an [x]. *)
Definition stops_numeral (tail : string) : bool :=
  match tail with
  | EmptyString => true
  | String c _ =>
      negb (is_digit c) && negb (Ascii.eqb c "x") && negb (Ascii.eqb c "X")
  end.

Section FurtherVocabulary.

Context {Payload : Type} {serializer : Serializer Payload}.
Implicit Types (w : @World Payload) (d : @Device Payload).


(** The response to a status request, likewise. *)
Definition response_of d (serial : Z) : ServerResponse :=
  {| res_options :=
       [ ("Uri-Path"%string, OBuffers [Buffer_from "cit"; Buffer_from "s"]);
         (GLOBAL_DEVID, OPrim (PStr (getDeviceIdentifier d)));
         (STATUS_VALIDITY, OPrim (PNum 38400));
         (STATUS_SERIAL, OPrim (PNum serial)) ];
     res_body := Some (JSON_stringify (getCoapStatusPayload d)) |}.


Definition sent_time (m : Sent) : Z :=
  match m with
  | Announced t _ => t
  | Responded t _ => t
  end.






(** The field [h] holds a server of the given kind that is not closed and
    has the request handler attached. *)
Definition holds (h : option nat) (address : option string) w : Prop :=
  forall ep,
    h = Some ep ->
    exists e,
      nth_error (endpoints w) ep = Some e /\
      multicastAddress e = address /\
      ep_state e <> Closed /\
      request_listener e = true.

Definition handles_inv w : Prop :=
  holds (server (this w)) None w /\
  holds (multicastServer (this w)) (Some COAP_MULTICAST_ADDRESS) w /\
  (server (this w) = None <-> change_listeners w = 0%nat).


(** [w'] has the servers of [w], held and subscribed as in [w]. *)
Definition same_servers w w' : Prop :=
  server (this w') = server (this w) /\
  multicastServer (this w') = multicastServer (this w) /\
  endpoints w' = endpoints w /\
  change_listeners w' = change_listeners w.

(** What can become of a server: its group never changes; it goes from
    binding to listening or failed, and from anywhere to closed; a handler
    taken off stays off; a listen callback that ran has run. *)
Definition later (e e' : Endpoint) : Prop :=
  multicastAddress e' = multicastAddress e /\
  (ep_state e' = ep_state e \/ ep_state e' = Closed \/
   (ep_state e = Binding /\
    (ep_state e' = Listening \/ ep_state e' = Failed))) /\
  (request_listener e = false -> request_listener e' = false) /\
  (ep_reported e = true -> ep_reported e' = true).

(** Every server of [w] is still there in [w'], under the same handle. *)
Definition grows w w' : Prop :=
  forall ep e,
    nth_error (endpoints w) ep = Some e ->
    exists e', nth_error (endpoints w') ep = Some e' /\ later e e'.

End FurtherVocabulary.

(* ================================================================= *)
(** * Properties *)

Ltac digit_cases d :=
  let H := fresh "Hd" in
  assert (H : d = 0 \/ d = 1 \/ d = 2 \/ d = 3 \/ d = 4 \/
              d = 5 \/ d = 6 \/ d = 7 \/ d = 8 \/ d = 9) by lia;
  repeat (destruct H as [H | H]); subst d.

(** ** Decimal numerals read back *)

Lemma digit_value_digit_char (d : Z) :
  0 <= d < 10 -> digit_value 10 (Decimal.digit_char d) = Some d.
Proof.
  intros Hd. digit_cases d; reflexivity.
Qed.

Lemma is_digit_digit_char (d : Z) :
  0 <= d < 10 -> is_digit (Decimal.digit_char d) = true.
Proof.
  intros Hd. digit_cases d; reflexivity.
Qed.

Lemma is_digit_inv (c : ascii) :
  is_digit c = true -> exists d, 0 <= d < 10 /\ c = Decimal.digit_char d.
Proof.
  unfold is_digit. intros H.
  apply andb_true_iff in H. destruct H as [Hlo Hhi].
  apply N.leb_le in Hlo. apply N.leb_le in Hhi.
  exists (Z.of_N (N_of_ascii c) - 48). split; [lia |].
  unfold Decimal.digit_char.
  replace (48 + (Z.of_N (N_of_ascii c) - 48)) with (Z.of_N (N_of_ascii c)) by lia.
  rewrite N2Z.id. symmetry. apply ascii_N_embedding.
Qed.

Lemma all_digits_onto (fuel : nat) :
  forall n acc,
    all_digits acc = true ->
    all_digits (Decimal.digits_onto fuel n acc) = true.
Proof.
  induction fuel as [| fuel IH]; intros n acc Hacc; simpl; [exact Hacc |].
  assert (Hstep : all_digits (String (Decimal.digit_char (n mod 10)) acc) = true).
  { simpl. rewrite Hacc, is_digit_digit_char; [reflexivity |].
    apply Z.mod_pos_bound. lia. }
  destruct (n <? 10); [exact Hstep | apply IH; exact Hstep].
Qed.

Lemma digits_onto_S (fuel : nat) (n : Z) (acc : string) :
  Decimal.digits_onto (S fuel) n acc
  = if n <? 10 then String (Decimal.digit_char (n mod 10)) acc
    else Decimal.digits_onto fuel (n / 10)
                             (String (Decimal.digit_char (n mod 10)) acc).
Proof. reflexivity. Qed.

(** The digits pushed by [digits_onto] read back as [n], whatever
    follows them. *)
Lemma leading_digits_onto (fuel : nat) :
  forall n rest,
    0 <= n < 10 ^ Z.of_nat (S fuel) ->
    leading_digits 10 (Decimal.digits_onto (S fuel) n rest)
    = Some (scan_digits 10 n rest).
Proof.
  induction fuel as [| fuel IH]; intros n rest Hn.
  - change (10 ^ Z.of_nat 1) with 10 in Hn.
    rewrite digits_onto_S. destruct (Z.ltb_spec n 10) as [_ | Hge]; [| lia].
    rewrite Z.mod_small by lia.
    unfold leading_digits. rewrite digit_value_digit_char by lia. reflexivity.
  - rewrite digits_onto_S.
    destruct (Z.ltb_spec n 10) as [Hlt | Hge].
    + rewrite Z.mod_small by lia.
      unfold leading_digits. rewrite digit_value_digit_char by lia. reflexivity.
    + rewrite IH.
      * cbn [scan_digits].
        rewrite digit_value_digit_char by (apply Z.mod_pos_bound; lia).
        f_equal. f_equal. rewrite Z.mul_comm. symmetry. apply Z.div_mod. lia.
      * split; [apply Z.div_pos; lia |].
        apply Z.div_lt_upper_bound; [lia |].
        replace (Z.of_nat (S (S fuel))) with (Z.succ (Z.of_nat (S fuel))) in Hn by lia.
        rewrite Z.pow_succ_r in Hn by lia. lia.
Qed.

Lemma digit_fuel_enough (n : Z) :
  0 <= n -> n < 10 ^ Z.of_nat (Decimal.digit_fuel n).
Proof.
  intros Hn. unfold Decimal.digit_fuel.
  rewrite Nat2Z.inj_succ, Z2Nat.id by apply Z.log2_nonneg.
  destruct (Z.eq_dec n 0) as [-> | Hnz].
  - simpl. lia.
  - assert (Hlog : n < 2 ^ Z.succ (Z.log2 n)) by (apply Z.log2_spec; lia).
    assert (Hpow : 2 ^ Z.succ (Z.log2 n) <= 10 ^ Z.succ (Z.log2 n)).
    { apply Z.pow_le_mono_l. lia. }
    lia.
Qed.

Lemma of_nonneg_head (n : Z) :
  0 <= n ->
  exists d rest,
    Decimal.of_nonneg n = String (Decimal.digit_char d) rest /\
    0 <= d < 10 /\ all_digits rest = true /\
    leading_digits 10 (Decimal.of_nonneg n) = Some n.
Proof.
  intros Hn.
  assert (Hall : all_digits (Decimal.of_nonneg n) = true)
    by (apply all_digits_onto; reflexivity).
  assert (Hread : leading_digits 10 (Decimal.of_nonneg n) = Some n).
  { unfold Decimal.of_nonneg, Decimal.digit_fuel.
    rewrite leading_digits_onto; [reflexivity |].
    split; [exact Hn | apply (digit_fuel_enough n Hn)]. }
  destruct (Decimal.of_nonneg n) as [| c rest] eqn:E; [discriminate Hread |].
  simpl in Hall. apply andb_true_iff in Hall. destruct Hall as [Hc Hrest].
  destruct (is_digit_inv c Hc) as [d [Hd ->]].
  exists d, rest. repeat split; try assumption; lia.
Qed.

(** A numeral is read in radix 10 from its first character on: there is
    no white space, no sign and no [0x] in front. *)
Lemma StringToInt_numeral (d : Z) (rest : string) :
  0 <= d < 10 -> all_digits rest = true ->
  StringToInt (String (Decimal.digit_char d) rest)
  = match leading_digits 10 (String (Decimal.digit_char d) rest) with
    | Some m => Int m
    | None => NaN
    end.
Proof.
  intros Hd Hrest.
  destruct rest as [| c2 r2].
  - digit_cases d; reflexivity.
  - simpl in Hrest. apply andb_true_iff in Hrest. destruct Hrest as [Hc2 _].
    destruct (is_digit_inv c2 Hc2) as [d2 [Hd2 ->]].
    destruct r2 as [| c3 r3];
      digit_cases d; digit_cases d2; unfold StringToInt;
      cbn -[Z.mul leading_digits];
      match goal with
      | |- context [leading_digits ?R ?s] =>
          destruct (leading_digits R s); [rewrite Z.mul_1_l |]; reflexivity
      end.
Qed.

Lemma StringToInt_negative_numeral (d : Z) (rest : string) :
  0 <= d < 10 -> all_digits rest = true ->
  StringToInt (String "-" (String (Decimal.digit_char d) rest))
  = match leading_digits 10 (String (Decimal.digit_char d) rest) with
    | Some m => Int (- m)
    | None => NaN
    end.
Proof.
  intros Hd Hrest.
  destruct rest as [| c2 r2].
  - digit_cases d; reflexivity.
  - simpl in Hrest. apply andb_true_iff in Hrest. destruct Hrest as [Hc2 _].
    destruct (is_digit_inv c2 Hc2) as [d2 [Hd2 ->]].
    digit_cases d; digit_cases d2; unfold StringToInt;
      cbn -[Z.mul leading_digits];
      match goal with
      | |- context [leading_digits ?R ?s] =>
          destruct (leading_digits R s) as [m |];
          [replace (-1 * m) with (- m) by lia |]; reflexivity
      end.
Qed.

(** An integer below 10^21 in magnitude reads back from its own text. *)
Lemma parseInt_integer (n : Z) :
  Z.abs n < 10 ^ 21 -> parseInt (PNum n) = Int n.
Proof.
  intros Hn. unfold parseInt, ToString, Number_toString.
  destruct (Z.ltb_spec (Z.abs n) (10 ^ 21)) as [_ | Hbig]; [| lia].
  destruct (of_nonneg_head (Z.abs n) (Z.abs_nonneg n))
    as (d & rest & Htext & Hd & Hrest & Hread).
  destruct (Z.ltb_spec n 0) as [Hneg | Hpos].
  - change ("-" ++ Decimal.of_nonneg (Z.abs n))%string
      with (String "-" (Decimal.of_nonneg (Z.abs n))).
    rewrite Htext, StringToInt_negative_numeral by assumption.
    rewrite <- Htext, Hread. f_equal. lia.
  - change ("" ++ Decimal.of_nonneg (Z.abs n))%string
      with (Decimal.of_nonneg (Z.abs n)).
    rewrite Htext, StringToInt_numeral by assumption.
    rewrite <- Htext, Hread. f_equal. lia.
Qed.

(** What the runtime functions give on a few inputs. *)
Example Number_toString_examples :
  Number_toString 38400 = "38400"%string /\
  Number_toString 0 = "0"%string /\
  Number_toString (-17) = "-17"%string /\
  Number_toString (10 ^ 21 - 1) = "999999999999999999999"%string /\
  Number_toString (10 ^ 21) = "1e+21"%string /\
  Number_toString (123 * 10 ^ 21) = "1.23e+23"%string.
Proof.
  vm_compute. repeat split.
Qed.

Example parseInt_examples :
  parseInt (PStr "38400") = Int 38400 /\
  parseInt (PStr "  42") = Int 42 /\
  parseInt (PStr "-7") = Int (-7) /\
  parseInt (PStr "0x1F") = Int 31 /\
  parseInt (PStr "12abc") = Int 12 /\
  parseInt (PStr "65535.5") = Int 65535 /\
  parseInt (PStr "1e21") = Int 1 /\
  parseInt (PStr "") = NaN /\
  parseInt (PStr "abc") = NaN /\
  parseInt (PStr "0x") = NaN /\
  parseInt (PStr "-") = NaN.
Proof.
  vm_compute. repeat split.
Qed.

(** ** Sixteen-bit buffers *)

Lemma byte_value_ToUint8 (z : Z) : byte_value (ToUint8 z) = z mod 256.
Proof.
  assert (Hm : 0 <= z mod 256 < 256) by (apply Z.mod_pos_bound; lia).
  unfold byte_value, ToUint8.
  destruct (Byte.of_N (Z.to_N (z mod 256))) as [b |] eqn:E.
  - apply Byte.to_of_N in E. rewrite E. apply Z2N.id. lia.
  - apply Byte.of_N_None_iff in E. lia.
Qed.

Lemma writeUInt16BE_in_range (z : Z) :
  0 <= z <= 65535 ->
  writeUInt16BE (Int z) 0 (Buffer_alloc 2) = Ok (uint16_be z).
Proof.
  intros Hz. unfold writeUInt16BE.
  destruct (Z.gtb_spec z 65535) as [Hgt | _]; [lia |].
  destruct (Z.ltb_spec z 0) as [Hlt | _]; [lia |].
  reflexivity.
Qed.


Lemma readUInt16BE_uint16_be (z : Z) :
  0 <= z <= 65535 -> readUInt16BE 0 (uint16_be z) = Ok z.
Proof.
  intros Hz. unfold readUInt16BE, uint16_be. cbn [nth_error].
  rewrite !byte_value_ToUint8, Z.shiftr_div_pow2 by lia.
  change (2 ^ 8) with 256.
  rewrite (Z.mod_small (z / 256)).
  - f_equal. rewrite Z.mul_comm. symmetry. apply Z.div_mod. lia.
  - split; [apply Z.div_pos; lia | apply Z.div_lt_upper_bound; lia].
Qed.

Lemma registered_numeric_codec (name : string) :
  name = STATUS_VALIDITY \/ name = STATUS_SERIAL ->
  lookup_codec name (registry (registerOptions fresh_process))
  = Some uint16_codec.
Proof.
  intros [-> | ->]; reflexivity.
Qed.

(** ** The numeric option codec *)




(** C8 (as amended). Under either numeric option, an input that integer
    parsing cannot read (it yields NaN) does not make the encoder fail: the
    result is the two-byte buffer of zeros, which decodes to 0. *)
Theorem uint16_encode_non_numeric (name : string) (v : prim) :
  name = STATUS_VALIDITY \/ name = STATUS_SERIAL ->
  parseInt v = NaN ->
  let p := registerOptions fresh_process in
  encode_option p name v = Some (Ok [x00; x00]) /\
  (forall e, encode_option p name v <> Some (Throw e)) /\
  decode_option p name [x00; x00] = Some (Ok (PNum 0)).
Proof.
  intros Hname Hnan p. subst p.
  unfold encode_option, decode_option.
  rewrite (registered_numeric_codec name Hname). cbn [option_map].
  assert (Henc : toBinary uint16_codec v = Ok [x00; x00]).
  { cbn [toBinary uint16_codec]. rewrite Hnan. reflexivity. }
  rewrite Henc. repeat split.
  intros e He. discriminate He.
Qed.

Lemma uint16_encode_non_numeric_witness :
  parseInt (PStr "abc") = NaN /\
  encode_option (registerOptions fresh_process) STATUS_SERIAL (PStr "abc")
  = Some (Ok [x00; x00]).
Proof.
  split; [reflexivity |].
  apply (uint16_encode_non_numeric STATUS_SERIAL (PStr "abc")
           (or_intror eq_refl) eq_refl).
Defined.

(** C8 as stated fails on the text [abc]: it is not numeric, and encoding
    it raises no error under either option. *)
Lemma uint16_encode_abc_does_not_fail :
  parseInt (PStr "abc") = NaN /\
  ~ (exists e,
       encode_option (registerOptions fresh_process) STATUS_VALIDITY (PStr "abc")
       = Some (Throw e)) /\
  ~ (exists e,
       encode_option (registerOptions fresh_process) STATUS_SERIAL (PStr "abc")
       = Some (Throw e)).
Proof.
  split; [reflexivity |].
  split; intros [e He]; vm_compute in He; discriminate He.
Qed.

(** ** The device identifier *)

Lemma length_append (a b : string) :
  String.length (a ++ b) = (String.length a + String.length b)%nat.
Proof.
  induction a as [| c a IH]; simpl; [reflexivity | rewrite IH; reflexivity].
Qed.

Lemma split_segment (sep : ascii) (a rest : string) :
  free_of sep a = true ->
  split sep (a ++ String sep rest) = a :: split sep rest.
Proof.
  induction a as [| c a IH]; simpl; intros Hfree.
  - rewrite Ascii.eqb_refl. reflexivity.
  - apply andb_true_iff in Hfree. destruct Hfree as [Hc Ha].
    apply negb_true_iff in Hc. rewrite Hc, (IH Ha). reflexivity.
Qed.

(** C9. For every device, [getDeviceIdentifier] is the type, a [#], the
    id, and [#1], exactly: it has three characters more than the two
    attributes together, it reads nothing of the device but these two
    attributes, and when neither contains a [#] it splits at [#] back into
    the type, the id and [1]. It is a total function of the device. *)
Theorem getDeviceIdentifier_format
        {Payload : Type} (t i : string) (p : Payload) :
  let device := {| type := t; id := i; getCoapStatusPayload := p |} in
  getDeviceIdentifier device = (t ++ "#" ++ i ++ "#1")%string /\
  String.length (getDeviceIdentifier device)
  = (String.length t + String.length i + 3)%nat /\
  (forall p' : Payload,
      getDeviceIdentifier {| type := t; id := i; getCoapStatusPayload := p' |}
      = getDeviceIdentifier device) /\
  (free_of "#" t = true -> free_of "#" i = true ->
   split "#" (getDeviceIdentifier device) = [t; i; "1"%string]).
Proof.
  cbv zeta. unfold getDeviceIdentifier. cbn [type id].
  split; [reflexivity |].
  split.
  { rewrite !length_append. simpl. lia. }
  split; [reflexivity |].
  intros Ht Hi.
  change (t ++ "#" ++ i ++ "#1")%string
    with (t ++ String "#" (i ++ String "#" "1"))%string.
  rewrite (split_segment "#" t _ Ht), (split_segment "#" i _ Hi).
  reflexivity.
Qed.

(** ** Options of a response *)

Lemma get_option_app (name : string) (a b : options) :
  get_option name (a ++ b)
  = match get_option name a with
    | Some v => Some v
    | None => get_option name b
    end.
Proof.
  induction a as [| [k v] a IH]; simpl; [reflexivity |].
  destruct (String.eqb k name); [reflexivity | exact IH].
Qed.

Lemma get_option_filter_same (name : string) (opts : options) :
  get_option name (filter (fun o => negb (String.eqb (fst o) name)) opts) = None.
Proof.
  induction opts as [| [k v] opts IH]; simpl; [reflexivity |].
  destruct (String.eqb k name) eqn:E; simpl; [exact IH |].
  rewrite E. exact IH.
Qed.


Lemma get_option_setOption_same (name : string) (v : optvalue) (res : ServerResponse) :
  get_option name (res_options (setOption name v res)) = Some v.
Proof.
  unfold setOption. cbn [res_options].
  rewrite get_option_app, get_option_filter_same. simpl.
  rewrite String.eqb_refl. reflexivity.
Qed.



Section Properties.

Context {Payload : Type} {serializer : Serializer Payload}.
Implicit Types (w : @World Payload) (d : @Device Payload).

(** ** What each method changes *)

Lemma broadcast_fields w :
  let w' := _broadcastStatus w in
  server (this w') = server (this w) /\
  multicastServer (this w') = multicastServer (this w) /\
  _serial (this w') = _serial (this w) + 1 /\
  _statusBroadcastTimeout (this w') = Some (next_timer w) /\
  timers w'
  = (without_timer (_statusBroadcastTimeout (this w)) (timers w)
     ++ [(next_timer w, now w + 30000)])%list /\
  next_timer w' = S (next_timer w) /\
  wire w' = (wire w ++ [Announced (now w) (announcement w)])%list /\
  endpoints w' = endpoints w /\
  change_listeners w' = change_listeners w /\
  starts w' = starts w /\
  settled w' = settled w /\
  now w' = now w /\
  device w' = device w.
Proof.
  unfold _broadcastStatus, announcement.
  destruct (_statusBroadcastTimeout (this w)); cbn; repeat split.
Qed.

Lemma update_nth_twice {A : Type} (f g : A -> A) (i : nat) (l : list A) :
  update_nth i g (update_nth i f l) = update_nth i (fun x => g (f x)) l.
Proof.
  revert i. induction l as [| x l IH]; intros [| i]; simpl;
    try reflexivity.
  rewrite IH. reflexivity.
Qed.

Lemma stop_fields w :
  let w' := stop w in
  server (this w') = None /\
  multicastServer (this w') = None /\
  _serial (this w') = _serial (this w) /\
  _statusBroadcastTimeout (this w') = None /\
  timers w' = without_timer (_statusBroadcastTimeout (this w)) (timers w) /\
  next_timer w' = next_timer w /\
  wire w' = wire w /\
  endpoints w'
  = close_at (multicastServer (this w))
             (close_at (server (this w)) (endpoints w)) /\
  change_listeners w' = 0%nat /\
  starts w' = starts w /\
  settled w' = settled w /\
  now w' = now w /\
  device w' = device w.
Proof.
  destruct w as [[s m serial t] ? ? ? ? ? ? ? ? ? ? ?].
  unfold stop, close_at.
  destruct s, m, t; cbn; rewrite ?update_nth_twice; repeat split.
Qed.

Lemma handle_fields (req : IncomingMessage) (res : ServerResponse) w :
  exists res',
    _handleStatusRequest req res w
    = Ok (set_wire (wire w ++ [Responded (now w) res'])
            (set__serial (_serial (this w) + 1)
               (console_log "GET /cit/s" w)), res') /\
    res_options res'
    = res_options
        (setOption STATUS_SERIAL (OPrim (PNum (_serial (this w))))
           (setOption STATUS_VALIDITY (OPrim (PNum 38400))
              (setOption GLOBAL_DEVID
                 (OPrim (PStr (getDeviceIdentifier (device w))))
                 (setUriPath res "/cit/s")))) /\
    res_body res'
    = Some (JSON_stringify (getCoapStatusPayload (device w))).
Proof.
  eexists. unfold _handleStatusRequest, res_end. cbn.
  split; [reflexivity |]. split; reflexivity.
Qed.

Lemma start_fields w :
  let w' := start w in
  _serial (this w') = _serial (this w) /\
  _statusBroadcastTimeout (this w') = _statusBroadcastTimeout (this w) /\
  timers w' = timers w /\
  next_timer w' = next_timer w /\
  wire w' = wire w /\
  change_listeners w' = S (change_listeners w) /\
  settled w' = settled w /\
  now w' = now w /\
  device w' = device w.
Proof.
  destruct w as [[s m serial t] ? ? ? ? ? ? ? ? ? ? ?].
  unfold start, _startServer, _startMulticastServer.
  destruct s, m; cbn; repeat split.
Qed.

Lemma listen_callback_fields (ep : nat) (err : option error) w :
  let w' := listen_callback ep err w in
  this w' = this w /\
  timers w' = timers w /\
  next_timer w' = next_timer w /\
  wire w' = wire w /\
  change_listeners w' = change_listeners w /\
  settled w' = settled w /\
  now w' = now w /\
  device w' = device w.
Proof.
  unfold listen_callback.
  destruct (nth_error (endpoints w) ep) as [e |]; [| repeat split].
  destruct (ep_reported e); cbn; repeat split.
Qed.

(** ** One sequence of serial values *)

Lemma count_from_app (z : Z) (a b : nat) :
  count_from z (a + b) = count_from z a ++ count_from (z + Z.of_nat a) b.
Proof.
  revert z. induction a as [| a IH]; intros z.
  - simpl. rewrite Z.add_0_r. reflexivity.
  - cbn [Nat.add count_from]. rewrite IH. cbn [app].
    replace (z + Z.of_nat (S a)) with (z + 1 + Z.of_nat a) by lia.
    reflexivity.
Qed.

Lemma draws_same w w' :
  wire w' = wire w -> _serial (this w') = _serial (this w) -> draws w w'.
Proof.
  intros Hwire Hserial. exists []. rewrite app_nil_r. simpl.
  repeat split; [exact Hwire | lia].
Qed.

Lemma draws_refl w : draws w w.
Proof. apply draws_same; reflexivity. Qed.

Lemma draws_trans w1 w2 w3 : draws w1 w2 -> draws w2 w3 -> draws w1 w3.
Proof.
  intros (n1 & Hw1 & Hs1 & Hc1) (n2 & Hw2 & Hs2 & Hc2).
  exists (n1 ++ n2). repeat split.
  - rewrite Hw2, Hw1, app_assoc. reflexivity.
  - rewrite map_app, length_app, count_from_app.
    unfold numbered in *. rewrite map_app, Hs1, Hs2, Hc1. reflexivity.
  - rewrite Hc2, Hc1, length_app. lia.
Qed.

Lemma draws_one w w' (m : Sent) :
  wire w' = wire w ++ [m] ->
  serial_of m = Some (OPrim (PNum (_serial (this w)))) ->
  _serial (this w') = _serial (this w) + 1 ->
  draws w w'.
Proof.
  intros Hwire Hm Hserial. exists [m]. simpl.
  repeat split; [exact Hwire | rewrite Hm; reflexivity | lia].
Qed.

Lemma draws_broadcast w : draws w (_broadcastStatus w).
Proof.
  destruct (broadcast_fields w) as (_ & _ & Hs & _ & _ & _ & Hw & _).
  eapply draws_one; [exact Hw | reflexivity | exact Hs].
Qed.

Lemma serial_of_response (t : Z) (res res' : ServerResponse) (v : optvalue) :
  res_options res' = res_options (setOption STATUS_SERIAL v res) ->
  serial_of (Responded t res') = Some v.
Proof.
  intros Hopts. unfold serial_of. cbn [sent_options]. rewrite Hopts.
  apply get_option_setOption_same.
Qed.

Lemma draws_handle (req : IncomingMessage) (res res' : ServerResponse) w w' :
  _handleStatusRequest req res w = Ok (w', res') -> draws w w'.
Proof.
  intros Hrun.
  destruct (handle_fields req res w) as (r & Heq & Hopts & _).
  rewrite Heq in Hrun. injection Hrun as <- <-.
  eapply draws_one; [reflexivity | | reflexivity].
  eapply serial_of_response. exact Hopts.
Qed.

Lemma draws_request (req : IncomingMessage) (res res' : ServerResponse) w w' :
  _requestHandler req res w = Ok (w', res') -> draws w w'.
Proof.
  unfold _requestHandler.
  destruct (String.eqb (method req) "GET" && String.eqb (url req) "/cit/s").
  - destruct (_handleStatusRequest req res w) as [[w1 r1] | e] eqn:E;
      [| discriminate].
    intros Hrun. injection Hrun as <- <-. eapply draws_handle. exact E.
  - intros Hrun. injection Hrun as <- <-. apply draws_refl.
Qed.

Lemma draws_stop w : draws w (stop w).
Proof.
  destruct (stop_fields w) as (_ & _ & Hs & _ & _ & _ & Hw & _).
  apply draws_same; assumption.
Qed.

Lemma draws_iter (f : World -> World) (n : nat) :
  (forall w, draws w (f w)) -> forall w, draws w (Nat.iter n f w).
Proof.
  intros Hf w. induction n as [| n IH]; simpl.
  - apply draws_refl.
  - eapply draws_trans; [exact IH | apply Hf].
Qed.

Lemma draws_continuation w (c : StartCall) : draws w (run_continuation w c).
Proof.
  unfold run_continuation, start_then, start_catch.
  destruct (outcome c) as [[e |] |].
  - apply draws_trans with (stop w);
      [apply draws_stop | apply draws_same; reflexivity].
  - apply draws_trans with (_broadcastStatus w);
      [apply draws_broadcast | apply draws_same; reflexivity].
  - apply draws_refl.
Qed.

Lemma draws_fold (l : list StartCall) :
  forall w, draws w (fold_left run_continuation l w).
Proof.
  induction l as [| c l IH]; intros w; simpl.
  - apply draws_refl.
  - eapply draws_trans; [apply draws_continuation | apply IH].
Qed.

Lemma draws_step w (ev : event) : draws w (step w ev).
Proof.
  destruct ev as [| | d | ep req | ep err | | ms |]; cbn [step].
  - destruct (start_fields w) as (Hs & _ & _ & _ & Hw & _).
    apply draws_same; assumption.
  - apply draws_stop.
  - unfold emit_change.
    apply draws_trans with (set_device d w);
      [apply draws_same; reflexivity |].
    apply draws_iter. intros w0. apply draws_broadcast.
  - unfold deliver.
    destruct (nth_error (endpoints w) ep) as [e |]; [| apply draws_refl].
    destruct (ep_state e), (request_listener e); try apply draws_refl.
    destruct (_requestHandler req fresh_response w) as [[w1 r1] | err] eqn:E;
      [| apply draws_refl].
    eapply draws_request. exact E.
  - destruct (listen_callback_fields ep err w) as (Ht & _ & _ & Hw & _).
    apply draws_same; [exact Hw | rewrite Ht; reflexivity].
  - unfold drain.
    eapply draws_trans; [| apply draws_fold].
    apply draws_same; reflexivity.
  - apply draws_same; reflexivity.
  - unfold timer_expiry.
    destruct (find (fun t => snd t <=? now w) (timers w)) as [[h due] |];
      [| apply draws_refl].
    eapply draws_trans; [| apply draws_broadcast].
    apply draws_same; reflexivity.
Qed.

Lemma draws_run (evs : list event) : forall w, draws w (run evs w).
Proof.
  induction evs as [| ev evs IH]; intros w; simpl.
  - apply draws_refl.
  - eapply draws_trans; [apply draws_step | apply IH].
Qed.

Lemma serials_from_init d (evs : list event) :
  let w := run evs (init d) in
  map serial_of (wire w) = numbered (count_from 1 (List.length (wire w))) /\
  _serial (this w) = 1 + Z.of_nat (List.length (wire w)).
Proof.
  destruct (draws_run evs (init d)) as (new & Hwire & Hserials & Hcount).
  cbv zeta. rewrite Hwire. cbn [init constructor wire this _serial app] in *.
  split; assumption.
Qed.

(** *** The registry is set once *)

Lemma process_broadcast w : process (_broadcastStatus w) = process w.
Proof.
  unfold _broadcastStatus.
  destruct (_statusBroadcastTimeout (this w)); reflexivity.
Qed.

Lemma process_stop w : process (stop w) = process w.
Proof.
  destruct w as [[s m serial t] ? ? ? ? ? ? ? ? ? ? ?].
  unfold stop. destruct s, m, t; reflexivity.
Qed.

Lemma process_fold (l : list StartCall) :
  forall w, process (fold_left run_continuation l w) = process w.
Proof.
  induction l as [| c l IH]; intros w; [reflexivity |].
  cbn [fold_left]. rewrite IH.
  unfold run_continuation, start_then, start_catch.
  destruct (outcome c) as [[e |] |]; cbn [process set_settled];
    [apply process_stop | apply process_broadcast | reflexivity].
Qed.

Lemma process_step w (ev : event) : process (step w ev) = process w.
Proof.
  destruct ev as [| | d | ep req | ep err | | ms |]; cbn [step].
  - destruct w as [[s m serial t] ? ? ? ? ? ? ? ? ? ? ?].
    unfold start, _startServer, _startMulticastServer.
    destruct s, m; reflexivity.
  - apply process_stop.
  - unfold emit_change.
    induction (change_listeners (set_device d w)) as [| n IH];
      [reflexivity |].
    change (Nat.iter (S n) _deviceChangeHandler (set_device d w))
      with (_broadcastStatus (Nat.iter n _deviceChangeHandler (set_device d w))).
    rewrite process_broadcast. exact IH.
  - unfold deliver.
    destruct (nth_error (endpoints w) ep) as [e |]; [| reflexivity].
    destruct (ep_state e), (request_listener e); try reflexivity.
    destruct (_requestHandler req fresh_response w) as [[w1 r1] | err] eqn:E;
      [| reflexivity].
    unfold _requestHandler in E.
    destruct (String.eqb (method req) "GET" && String.eqb (url req) "/cit/s").
    + destruct (handle_fields req fresh_response w) as (r & Heq & _).
      rewrite Heq in E. injection E as <- <-. reflexivity.
    + injection E as <- <-. reflexivity.
  - unfold listen_callback.
    destruct (nth_error (endpoints w) ep) as [e |]; [| reflexivity].
    destruct (ep_reported e); reflexivity.
  - unfold drain. rewrite process_fold. reflexivity.
  - reflexivity.
  - unfold timer_expiry.
    destruct (find (fun t => snd t <=? now w) (timers w)) as [[h due] |];
      [| reflexivity].
    rewrite process_broadcast. reflexivity.
Qed.

Lemma process_reachable d (evs : list event) :
  process (run evs (init d)) = registerOptions fresh_process.
Proof.
  assert (Hrun : forall l w, process (run l w) = process w).
  { induction l as [| ev l IH]; intros w; [reflexivity |].
    cbn [run fold_left]. fold (run l (step w ev)).
    rewrite IH. apply process_step. }
  rewrite Hrun. reflexivity.
Qed.

Lemma nth_error_count_from (k n : nat) (z : Z) :
  (k < n)%nat -> nth_error (count_from z n) k = Some (z + Z.of_nat k).
Proof.
  revert z n. induction k as [| k IH]; intros z [| n] Hk; try lia.
  - simpl. f_equal. lia.
  - cbn [count_from nth_error]. rewrite IH by lia. f_equal. lia.
Qed.

(** What the transport writes for the serial of the [k]-th message of a
    run, as long as it fits sixteen bits: its big-endian bytes, which decode
    to it. *)
Lemma sent_serial_encoded d (evs : list event) (k : nat) (m : Sent) :
  let w := run evs (init d) in
  let v := Z.of_nat (S k) in
  nth_error (wire w) k = Some m -> v <= 65535 ->
  serial_of m = Some (OPrim (PNum v)) /\
  encode_option (process w) STATUS_SERIAL (PNum v) = Some (Ok (uint16_be v)) /\
  decode_option (process w) STATUS_SERIAL (uint16_be v) = Some (Ok (PNum v)).
Proof.
  intros w v Hnth Hv.
  destruct (serials_from_init d evs) as [Hserials _]. fold w in Hserials.
  assert (Hk : (k < List.length (wire w))%nat)
    by (apply nth_error_Some; rewrite Hnth; discriminate).
  split.
  - apply (map_nth_error serial_of) in Hnth. rewrite Hserials in Hnth.
    unfold numbered in Hnth.
    rewrite (map_nth_error _ k _ (nth_error_count_from k _ 1 Hk)) in Hnth.
    injection Hnth as <-. unfold v.
    replace (Z.of_nat (S k)) with (1 + Z.of_nat k) by lia. reflexivity.
  - unfold w. rewrite process_reachable.
    unfold encode_option, decode_option.
    rewrite (registered_numeric_codec STATUS_SERIAL (or_intror eq_refl)).
    cbn [option_map toBinary fromBinary uint16_codec].
    rewrite parseInt_integer by (unfold v in *; lia).
    rewrite writeUInt16BE_in_range by (unfold v in *; lia).
    rewrite readUInt16BE_uint16_be by (unfold v in *; lia).
    split; reflexivity.
Qed.





(** ** One pending timer *)















(** ** Listeners *)

Lemma nth_error_update_nth {A : Type} (f : A -> A) (l : list A) :
  forall i j,
    nth_error (update_nth i f l) j
    = if Nat.eqb i j then option_map f (nth_error l j) else nth_error l j.
Proof.
  induction l as [| x l IH]; intros [| i] [| j]; simpl; try reflexivity.
  - destruct (Nat.eqb i j); reflexivity.
  - apply IH.
Qed.

Lemma nth_error_close_at (h : option nat) (l : list Endpoint) (j : nat) :
  nth_error (close_at h l) j
  = if match h with Some i => Nat.eqb i j | None => false end
    then option_map closed_endpoint (nth_error l j)
    else nth_error l j.
Proof.
  destruct h as [i |]; simpl; [apply nth_error_update_nth | reflexivity].
Qed.

Lemma shut_closed_endpoint (e : Endpoint) : shut (closed_endpoint e).
Proof. split; reflexivity. Qed.

Lemma stop_shuts_all w :
  ep_inv w ->
  forall ep e, nth_error (endpoints (stop w)) ep = Some e -> shut e.
Proof.
  intros Hinv ep e.
  destruct (stop_fields w) as (_ & _ & _ & _ & _ & _ & _ & He & _).
  rewrite He, !nth_error_close_at.
  destruct (server (this w)) as [s |] eqn:Es;
    destruct (multicastServer (this w)) as [m |] eqn:Em;
    repeat match goal with
           | |- context [Nat.eqb ?a ?b] =>
               destruct (Nat.eqb_spec a b); subst
           end;
    destruct (nth_error (endpoints w) ep) as [e0 |] eqn:E0;
    cbn [option_map]; intros Hsome; try discriminate;
    injection Hsome as <-;
    try apply shut_closed_endpoint;
    destruct (Hinv ep e0 E0) as [Hshut | [Hs | Hm]];
    try exact Hshut; try congruence.
Qed.



Lemma ep_inv_same w w' :
  endpoints w' = endpoints w ->
  server (this w') = server (this w) ->
  multicastServer (this w') = multicastServer (this w) ->
  ep_inv w -> ep_inv w'.
Proof.
  intros He Hs Hm Hinv. unfold ep_inv. rewrite He, Hs, Hm. exact Hinv.
Qed.

Lemma nth_error_snoc {A : Type} (l : list A) (x y : A) (i : nat) :
  nth_error (l ++ [x]) i = Some y ->
  nth_error l i = Some y \/ (i = List.length l /\ y = x).
Proof.
  intros Hnth.
  destruct (Nat.lt_ge_cases i (List.length l)) as [Hlt | Hge].
  - left. rewrite nth_error_app1 in Hnth by exact Hlt. exact Hnth.
  - right. rewrite nth_error_app2 in Hnth by exact Hge.
    destruct (i - List.length l)%nat as [| k] eqn:Ek; simpl in Hnth.
    + injection Hnth as <-. split; [lia | reflexivity].
    + destruct k; discriminate Hnth.
Qed.

Lemma ep_inv_start w : ep_inv w -> ep_inv (start w).
Proof.
  destruct w as [[s m serial t] ? ? ? eps ? ? ? ? ? ? ?].
  unfold ep_inv, start, _startServer, _startMulticastServer.
  destruct s as [s |], m as [m |]; cbn; intros Hinv ep e Hnth.
  - exact (Hinv ep e Hnth).
  - apply nth_error_snoc in Hnth. destruct Hnth as [Hold | [-> ->]].
    + destruct (Hinv ep e Hold) as [H | [H | H]]; auto. discriminate H.
    + right. right. reflexivity.
  - apply nth_error_snoc in Hnth. destruct Hnth as [Hold | [-> ->]].
    + destruct (Hinv ep e Hold) as [H | [H | H]]; auto. discriminate H.
    + right. left. reflexivity.
  - apply nth_error_snoc in Hnth. destruct Hnth as [Hold | [-> ->]].
    + apply nth_error_snoc in Hold. destruct Hold as [Hold | [-> ->]].
      * destruct (Hinv ep e Hold) as [H | [H | H]]; auto; discriminate H.
      * right. left. reflexivity.
    + right. right. rewrite length_app, Nat.add_comm. reflexivity.
Qed.

Lemma ep_inv_stop w : ep_inv w -> ep_inv (stop w).
Proof.
  intros Hinv ep e Hnth. left. eapply (stop_shuts_all w Hinv), Hnth.
Qed.

Lemma shut_reported (err : option error) (e : Endpoint) :
  shut e -> shut (reported err e).
Proof.
  intros [Hstate Hl]. split; [| exact Hl]. cbn. rewrite Hstate. reflexivity.
Qed.

Lemma listen_callback_endpoints (ep : nat) (err : option error) w :
  forall j e,
    nth_error (endpoints (listen_callback ep err w)) j = Some e ->
    exists e0,
      nth_error (endpoints w) j = Some e0 /\
      (e = e0 \/ e = reported err e0).
Proof.
  intros j e. unfold listen_callback.
  destruct (nth_error (endpoints w) ep) as [e1 |] eqn:E1;
    [| intros H; exists e; auto].
  destruct (ep_reported e1); [intros H; exists e; auto |].
  cbn. rewrite nth_error_update_nth.
  destruct (Nat.eqb ep j); [| intros H; exists e; auto].
  destruct (nth_error (endpoints w) j) as [e0 |]; [| discriminate].
  cbn. intros H. injection H as <-. exists e0. split; [reflexivity |].
  right. reflexivity.
Qed.

Lemma ep_inv_listen_callback (ep : nat) (err : option error) w :
  ep_inv w -> ep_inv (listen_callback ep err w).
Proof.
  intros Hinv j e Hnth.
  destruct (listen_callback_fields ep err w) as (Hthis & _).
  rewrite Hthis.
  destruct (listen_callback_endpoints ep err w j e Hnth)
    as (e0 & Hold & [-> | ->]).
  - exact (Hinv j e0 Hold).
  - destruct (Hinv j e0 Hold) as [H | H]; [| right; exact H].
    left. apply shut_reported. exact H.
Qed.

Lemma ep_inv_broadcast w : ep_inv w -> ep_inv (_broadcastStatus w).
Proof.
  destruct (broadcast_fields w) as (Hs & Hm & _ & _ & _ & _ & _ & He & _).
  apply ep_inv_same; assumption.
Qed.

Lemma ep_inv_iter (n : nat) w :
  ep_inv w -> ep_inv (Nat.iter n _broadcastStatus w).
Proof.
  intros Hinv. induction n as [| n IH]; simpl; [exact Hinv |].
  apply ep_inv_broadcast. exact IH.
Qed.

Lemma ep_inv_fold (l : list StartCall) :
  forall w, ep_inv w -> ep_inv (fold_left run_continuation l w).
Proof.
  induction l as [| c l IH]; intros w Hinv; simpl; [exact Hinv |].
  apply IH. unfold run_continuation, start_then, start_catch.
  destruct (outcome c) as [[e |] |]; [| | exact Hinv].
  - eapply ep_inv_same; [| | | apply (ep_inv_stop w Hinv)]; reflexivity.
  - eapply ep_inv_same; [| | | apply (ep_inv_broadcast w Hinv)]; reflexivity.
Qed.

Lemma ep_inv_step w (ev : event) : ep_inv w -> ep_inv (step w ev).
Proof.
  intros Hinv.
  destruct ev as [| | d | ep req | ep err | | ms |]; cbn [step].
  - apply ep_inv_start. exact Hinv.
  - apply ep_inv_stop. exact Hinv.
  - unfold emit_change. apply ep_inv_iter.
    eapply ep_inv_same; [| | | exact Hinv]; reflexivity.
  - unfold deliver.
    destruct (nth_error (endpoints w) ep) as [e |]; [| exact Hinv].
    destruct (ep_state e), (request_listener e); try exact Hinv.
    destruct (_requestHandler req fresh_response w) as [[w1 r1] | err] eqn:E;
      [| exact Hinv].
    unfold _requestHandler in E.
    destruct (String.eqb (method req) "GET" && String.eqb (url req) "/cit/s").
    + destruct (handle_fields req fresh_response w) as (r & Heq & _).
      rewrite Heq in E. injection E as <- <-.
      eapply ep_inv_same; [| | | exact Hinv]; reflexivity.
    + injection E as <- <-. exact Hinv.
  - apply ep_inv_listen_callback. exact Hinv.
  - unfold drain. apply ep_inv_fold.
    eapply ep_inv_same; [| | | exact Hinv]; reflexivity.
  - eapply ep_inv_same; [| | | exact Hinv]; reflexivity.
  - unfold timer_expiry.
    destruct (find (fun t => snd t <=? now w) (timers w)) as [[h due] |];
      [| exact Hinv].
    apply ep_inv_broadcast.
    eapply ep_inv_same; [| | | exact Hinv]; reflexivity.
Qed.

Lemma ep_inv_reachable d (evs : list event) : ep_inv (run evs (init d)).
Proof.
  assert (Hrun : forall l w, ep_inv w -> ep_inv (run l w)).
  { induction l as [| ev l IH]; intros w Hinv; simpl; [exact Hinv |].
    apply IH, ep_inv_step, Hinv. }
  apply Hrun. intros ep e Hnth. destruct ep; discriminate Hnth.
Qed.

(** ** After [stop] *)







(** *** The outcomes of [start()] only accumulate *)





(** *** Torn down until a pending start is fulfilled *)





(** ** A start that fails *)








Lemma paired_same w w' :
  server (this w') = server (this w) ->
  multicastServer (this w') = multicastServer (this w) ->
  paired w -> paired w'.
Proof.
  intros Hs Hm. unfold paired. rewrite Hs, Hm. exact (fun H => H).
Qed.

Lemma paired_fold (l : list StartCall) :
  forall w, paired w -> paired (fold_left run_continuation l w).
Proof.
  induction l as [| c l IH]; intros w Hp; simpl; [exact Hp |].
  apply IH. unfold run_continuation, start_then, start_catch.
  destruct (outcome c) as [[e |] |]; [| | exact Hp].
  - destruct (stop_fields w) as (Hs & Hm & _).
    unfold paired. cbn. rewrite Hs, Hm. split; reflexivity.
  - destruct (broadcast_fields w) as (Hs & Hm & _).
    eapply paired_same; [| | exact Hp]; assumption.
Qed.

Lemma paired_step w (ev : event) : paired w -> paired (step w ev).
Proof.
  intros Hp.
  destruct ev as [| | d | ep req | ep err | | ms |]; cbn [step].
  - destruct w as [[s m serial t] ? ? ? ? ? ? ? ? ? ? ?].
    unfold paired, start, _startServer, _startMulticastServer in *.
    destruct s, m; cbn in *; split; intros H; try discriminate H;
      try reflexivity; apply Hp in H; discriminate H.
  - destruct (stop_fields w) as (Hs & Hm & _).
    unfold paired. rewrite Hs, Hm. split; reflexivity.
  - unfold emit_change.
    induction (change_listeners (set_device d w)) as [| n IH]; [exact Hp |].
    change (Nat.iter (S n) _deviceChangeHandler (set_device d w))
      with (_broadcastStatus (Nat.iter n _deviceChangeHandler (set_device d w))).
    destruct (broadcast_fields (Nat.iter n _deviceChangeHandler (set_device d w)))
      as (Hs & Hm & _).
    eapply paired_same; [exact Hs | exact Hm | exact IH].
  - unfold deliver.
    destruct (nth_error (endpoints w) ep) as [e |]; [| exact Hp].
    destruct (ep_state e), (request_listener e); try exact Hp.
    destruct (_requestHandler req fresh_response w) as [[w1 r1] | err] eqn:E;
      [| exact Hp].
    unfold _requestHandler in E.
    destruct (String.eqb (method req) "GET" && String.eqb (url req) "/cit/s").
    + destruct (handle_fields req fresh_response w) as (r & Heq & _).
      rewrite Heq in E. injection E as <- <-. exact Hp.
    + injection E as <- <-. exact Hp.
  - destruct (listen_callback_fields ep err w) as (Hthis & _).
    unfold paired. rewrite Hthis. exact Hp.
  - unfold drain. apply paired_fold. exact Hp.
  - exact Hp.
  - unfold timer_expiry.
    destruct (find (fun t => snd t <=? now w) (timers w)) as [[h due] |];
      [| exact Hp].
    match goal with
    | |- paired (_broadcastStatus ?x) =>
        destruct (broadcast_fields x) as (Hs & Hm & _);
        eapply paired_same; [exact Hs | exact Hm | exact Hp]
    end.
Qed.

Lemma paired_reachable d (evs : list event) : paired (run evs (init d)).
Proof.
  assert (Hrun : forall l w, paired w -> paired (run l w)).
  { induction l as [| ev l IH]; intros w Hp; simpl; [exact Hp |].
    apply IH, paired_step, Hp. }
  apply Hrun. split; reflexivity.
Qed.












End Properties.

(* ================================================================= *)
(** ** Runs of a sample server *)




(** A start whose multicast listener fails after the unicast one has
    bound: both servers end closed, nothing is subscribed or pending, and
    the promise is rejected with the bind error. *)
Example failed_start_example :
  let w :=
    run [CallStart; ListenCallback 0 None; Microtasks;
         ListenCallback 1 (Some (BindError "EADDRINUSE")); Microtasks]
        (init sample_device) in
  map ep_state (endpoints w) = [Closed; Closed] /\
  change_listeners w = 0%nat /\
  timers w = [] /\
  settled w = [Some (BindError "EADDRINUSE")] /\
  wire w = [].
Proof.
  vm_compute. repeat split.
Qed.

(** Stopping and starting again goes on with the next serial value. *)
Example restart_continues_serial :
  let w :=
    run [CallStart; ListenCallback 0 None; ListenCallback 1 None; Microtasks;
         Inbound 0 sample_get;
         CallStop;
         CallStart; ListenCallback 2 None; ListenCallback 3 None; Microtasks]
        (init sample_device) in
  map serial_of (wire w)
  = [Some (OPrim (PNum 1)); Some (OPrim (PNum 2)); Some (OPrim (PNum 3))] /\
  _serial (this w) = 4.
Proof.
  vm_compute. repeat split.
Qed.

(* ================================================================= *)
(** * Further properties *)

(** ** Registration of the options *)

Lemma lookup_registered (p : Process) (name : string) :
  _optionsRegistered p = false ->
  lookup_codec name (registry (registerOptions p))
  = if String.eqb STATUS_SERIAL name then Some uint16_codec
    else if String.eqb STATUS_VALIDITY name then Some uint16_codec
    else if String.eqb GLOBAL_DEVID name then Some devid_codec
    else lookup_codec name (registry p).
Proof.
  intros Hflag. unfold registerOptions. rewrite Hflag. reflexivity.
Qed.

(** X1. [registerOptions] registers once per process: after it the flag
    is set, a second call changes nothing, and a call in a process where
    the flag is set changes nothing. The first call binds the device
    identifier option to its text codec and both numeric options to the
    sixteen-bit codec, and leaves the codec of every other option as it
    was. *)
Theorem registerOptions_once (p : Process) :
  _optionsRegistered (registerOptions p) = true /\
  registerOptions (registerOptions p) = registerOptions p /\
  (_optionsRegistered p = true -> registerOptions p = p) /\
  (_optionsRegistered p = false ->
   lookup_codec GLOBAL_DEVID (registry (registerOptions p)) = Some devid_codec /\
   lookup_codec STATUS_VALIDITY (registry (registerOptions p))
   = Some uint16_codec /\
   lookup_codec STATUS_SERIAL (registry (registerOptions p))
   = Some uint16_codec /\
   forall name,
     own_option name = false ->
     lookup_codec name (registry (registerOptions p))
     = lookup_codec name (registry p)).
Proof.
  assert (Hset : _optionsRegistered (registerOptions p) = true).
  { unfold registerOptions.
    destruct (_optionsRegistered p) eqn:E; [exact E | reflexivity]. }
  split; [exact Hset |].
  split.
  { unfold registerOptions at 1. rewrite Hset. reflexivity. }
  split.
  { intros Hflag. unfold registerOptions. rewrite Hflag. reflexivity. }
  intros Hflag.
  repeat split; try (rewrite lookup_registered by exact Hflag; reflexivity).
  intros name Hother. rewrite lookup_registered by exact Hflag.
  unfold own_option in Hother.
  apply orb_false_iff in Hother. destruct Hother as [Hother Hserial].
  apply orb_false_iff in Hother. destruct Hother as [Hdevid Hvalid].
  rewrite (String.eqb_sym STATUS_SERIAL), Hserial.
  rewrite (String.eqb_sym STATUS_VALIDITY), Hvalid.
  rewrite (String.eqb_sym GLOBAL_DEVID), Hdevid.
  reflexivity.
Qed.

(** ** The codecs, read the other way *)



Lemma ToUint8_byte_value (b : byte) : ToUint8 (byte_value b) = b.
Proof.
  unfold ToUint8, byte_value.
  assert (Hb : (Byte.to_N b <= 255)%N) by apply Byte.to_N_bounded.
  rewrite Z.mod_small by lia.
  rewrite N2Z.id, Byte.of_to_N. reflexivity.
Qed.

Lemma byte_value_bounds (b : byte) : 0 <= byte_value b < 256.
Proof.
  unfold byte_value.
  assert (Hb : (Byte.to_N b <= 255)%N) by apply Byte.to_N_bounded. lia.
Qed.

Lemma uint16_be_of_bytes (hi lo : byte) :
  uint16_be (byte_value hi * 2 ^ 8 + byte_value lo) = [hi; lo].
Proof.
  pose proof (byte_value_bounds hi) as Hhi.
  pose proof (byte_value_bounds lo) as Hlo.
  unfold uint16_be. rewrite Z.shiftr_div_pow2 by lia.
  change (2 ^ 8) with 256.
  replace ((byte_value hi * 256 + byte_value lo) / 256) with (byte_value hi)
    by (apply Z.div_unique with (r := byte_value lo); lia).
  rewrite ToUint8_byte_value. f_equal. f_equal.
  rewrite <- (ToUint8_byte_value lo) at 2.
  unfold ToUint8.
  replace ((byte_value hi * 256 + byte_value lo) mod 256)
    with (byte_value lo mod 256); [reflexivity |].
  rewrite Z.add_comm, Z.mod_add by lia. reflexivity.
Qed.

(** X3. Decoding under either numeric option reads the first two bytes of
    the buffer, high byte first, whatever follows them: the value lies
    between 0 and 65535, and encoding it gives those two bytes back. A
    buffer of fewer than two bytes is refused as out of bounds. *)
Theorem uint16_option_decode (name : string) (buf : Buffer) :
  name = STATUS_VALIDITY \/ name = STATUS_SERIAL ->
  let p := registerOptions fresh_process in
  ((List.length buf < 2)%nat ->
   decode_option p name buf = Some (Throw ERR_BUFFER_OUT_OF_BOUNDS)) /\
  ((2 <= List.length buf)%nat ->
   exists n,
     decode_option p name buf = Some (Ok (PNum n)) /\
     0 <= n <= 65535 /\
     decode_option p name (firstn 2 buf) = Some (Ok (PNum n)) /\
     encode_option p name (PNum n) = Some (Ok (firstn 2 buf))).
Proof.
  intros Hname p. subst p. unfold decode_option, encode_option.
  rewrite (registered_numeric_codec name Hname).
  cbn [option_map fromBinary toBinary uint16_codec].
  split.
  - intros Hshort. destruct buf as [| hi [| lo rest]]; simpl in Hshort;
      [reflexivity | reflexivity | lia].
  - intros Hlong. destruct buf as [| hi [| lo rest]]; simpl in Hlong;
      try lia.
    pose proof (byte_value_bounds hi) as Hhi.
    pose proof (byte_value_bounds lo) as Hlo.
    exists (byte_value hi * 2 ^ 8 + byte_value lo).
    split; [reflexivity |].
    split; [change (2 ^ 8) with 256; lia |].
    split; [reflexivity |].
    rewrite parseInt_integer by (change (2 ^ 8) with 256; lia).
    rewrite writeUInt16BE_in_range by (change (2 ^ 8) with 256; lia).
    rewrite uint16_be_of_bytes. reflexivity.
Qed.

Lemma uint16_option_decode_witness :
  decode_option (registerOptions fresh_process) STATUS_VALIDITY
                [x96; x00; xff] = Some (Ok (PNum 38400)) /\
  decode_option (registerOptions fresh_process) STATUS_VALIDITY [x96]
  = Some (Throw ERR_BUFFER_OUT_OF_BOUNDS).
Proof.
  destruct (uint16_option_decode STATUS_VALIDITY [x96; x00; xff]
              (or_introl eq_refl)) as [_ Hlong].
  destruct (uint16_option_decode STATUS_VALIDITY [x96]
              (or_introl eq_refl)) as [Hshort _].
  destruct Hlong as (n & Hdec & _); [simpl; lia |].
  split; [| apply Hshort; simpl; lia].
  pose proof Hdec as Hn. vm_compute in Hn. injection Hn as <-. exact Hdec.
Defined.

(** ** The parts of a path *)

Lemma split_not_nil (sep : ascii) (s : string) : split sep s <> [].
Proof.
  destruct s as [| c s]; simpl; [discriminate |].
  destruct (Ascii.eqb c sep); [discriminate |].
  destruct (split sep s); discriminate.
Qed.

Lemma split_app (sep : ascii) (a b : string) :
  split sep (a ++ String sep b) = split sep a ++ split sep b.
Proof.
  induction a as [| c a IH]; simpl.
  - rewrite Ascii.eqb_refl. reflexivity.
  - destruct (Ascii.eqb c sep); rewrite IH; [reflexivity |].
    destruct (split sep a) as [| part parts] eqn:E; [| reflexivity].
    exfalso. exact (split_not_nil sep a E).
Qed.

Lemma split_free (sep : ascii) (s : string) :
  free_of sep s = true -> split sep s = [s].
Proof.
  induction s as [| c s IH]; simpl; intros Hfree; [reflexivity |].
  apply andb_true_iff in Hfree. destruct Hfree as [Hc Hs].
  apply negb_true_iff in Hc. rewrite Hc, (IH Hs). reflexivity.
Qed.

Lemma split_parts_free (sep : ascii) (s : string) :
  Forall (fun part => free_of sep part = true) (split sep s).
Proof.
  induction s as [| c s IH]; simpl; [repeat constructor |].
  destruct (Ascii.eqb c sep) eqn:E; [constructor; [reflexivity | exact IH] |].
  destruct (split sep s) as [| part parts]; [repeat constructor; simpl |].
  - rewrite E. reflexivity.
  - inversion IH as [| ? ? Hpart Hparts]; subst.
    constructor; [simpl; rewrite E, Hpart; reflexivity | exact Hparts].
Qed.

Lemma append_nil_r (s : string) : (s ++ "")%string = s.
Proof.
  induction s as [| c s IH]; simpl; [reflexivity | rewrite IH; reflexivity].
Qed.

Lemma segments_app (a b : string) :
  segments (a ++ String "/" b) = segments a ++ segments b.
Proof.
  unfold segments. rewrite split_app, filter_app. reflexivity.
Qed.

Lemma segments_proper (uri : string) : Forall proper_part (segments uri).
Proof.
  unfold segments, proper_part.
  pose proof (split_parts_free "/" uri) as Hfree.
  induction (split "/" uri) as [| part parts IH]; simpl; [constructor |].
  inversion Hfree as [| ? ? Hpart Hparts]; subst.
  destruct (truthy part) eqn:E; [| exact (IH Hparts)].
  constructor; [split; assumption | exact (IH Hparts)].
Qed.

Lemma segments_part (part : string) :
  proper_part part -> segments part = [part].
Proof.
  intros [Htruthy Hfree]. unfold segments.
  rewrite (split_free "/" part Hfree). simpl. rewrite Htruthy. reflexivity.
Qed.

Lemma segments_nil_iff (uri : string) :
  segments uri = [] <-> only_slashes uri = true.
Proof.
  induction uri as [| c uri IH]; [split; reflexivity |].
  destruct (Ascii.eqb c "/") eqn:E.
  - apply Ascii.eqb_eq in E. subst c.
    change (String "/" uri) with ("" ++ String "/" uri)%string.
    rewrite segments_app. cbn [only_slashes append].
    rewrite Ascii.eqb_refl. exact IH.
  - cbn [only_slashes]. rewrite E. cbn [andb].
    split; [| discriminate].
    unfold segments. simpl. rewrite E.
    destruct (split "/" uri) as [| part parts]; discriminate.
Qed.

Lemma segments_join_from (parts : list string) :
  Forall proper_part parts ->
  forall part,
    proper_part part ->
    segments (part ++ join_path parts) = part :: parts.
Proof.
  induction 1 as [| next parts Hnext _ IH]; intros part Hpart.
  - cbn [join_path]. rewrite append_nil_r. apply segments_part. exact Hpart.
  - cbn [join_path]. rewrite segments_app, (segments_part part Hpart).
    rewrite (IH next Hnext). reflexivity.
Qed.

Lemma segments_join (parts : list string) :
  Forall proper_part parts -> segments (join_path parts) = parts.
Proof.
  intros Hparts. destruct Hparts as [| part parts Hpart Hparts];
    [reflexivity |].
  cbn [join_path].
  change (String "/" (part ++ join_path parts))
    with ("" ++ String "/" (part ++ join_path parts))%string.
  rewrite segments_app. apply (segments_join_from parts Hparts part Hpart).
Qed.

Lemma buffers_of_parts (parts : list string) :
  forall acc : list Buffer,
    fold_left
      (fun buffers p => if truthy p then buffers ++ [Buffer_from p] else buffers)
      parts acc
    = acc ++ map Buffer_from (filter truthy parts).
Proof.
  induction parts as [| p parts IH]; intros acc; simpl.
  - rewrite app_nil_r. reflexivity.
  - rewrite IH. destruct (truthy p); [| reflexivity].
    simpl. rewrite <- app_assoc. reflexivity.
Qed.

Lemma setUriPath_segments (res : ServerResponse) (uri : string) :
  setUriPath res uri
  = match segments uri with
    | [] => res
    | parts => setOption "Uri-Path" (OBuffers (map Buffer_from parts)) res
    end.
Proof.
  unfold setUriPath, segments. rewrite buffers_of_parts. cbn [app].
  destruct (filter truthy (split "/" uri)); reflexivity.
Qed.

(** X4. [setUriPath] keeps, in order, what stands between the slashes of
    the uri and is not empty: no part it stores is empty or holds a slash.
    For the empty uri and for a uri made of slashes only there is no part
    and the response is left as it is, with whatever Uri-Path it had;
    for every other uri the Uri-Path option is replaced by the parts. *)
Theorem setUriPath_parts (res : ServerResponse) (uri : string) :
  Forall proper_part (segments uri) /\
  (only_slashes uri = true -> setUriPath res uri = res) /\
  (only_slashes uri = false ->
   segments uri <> [] /\
   setUriPath res uri
   = setOption "Uri-Path" (OBuffers (map Buffer_from (segments uri))) res /\
   get_option "Uri-Path" (res_options (setUriPath res uri))
   = Some (OBuffers (map Buffer_from (segments uri)))).
Proof.
  split; [apply segments_proper |].
  rewrite setUriPath_segments.
  split.
  - intros Hslashes. apply segments_nil_iff in Hslashes.
    rewrite Hslashes. reflexivity.
  - intros Hpart.
    assert (Hsome : segments uri <> []).
    { intros Hnil. apply segments_nil_iff in Hnil. congruence. }
    split; [exact Hsome |].
    destruct (segments uri) as [| part parts]; [contradiction |].
    split; [reflexivity | apply get_option_setOption_same].
Qed.

(** X5. The parts of two uris joined by a slash are the parts of the first
    followed by the parts of the second, so a slash in front, a slash at
    the end and a doubled slash make no difference to what [setUriPath]
    stores. A path written from parts, a slash before each, is read back as
    those parts; and writing the parts of any uri as such a path gives a uri
    that [setUriPath] treats as the original. *)
Theorem setUriPath_slashes
        (res : ServerResponse) (a b : string) (parts : list string) :
  segments (a ++ String "/" b) = segments a ++ segments b /\
  setUriPath res (String "/" a) = setUriPath res a /\
  setUriPath res (a ++ "/") = setUriPath res a /\
  setUriPath res (a ++ String "/" (String "/" b))
  = setUriPath res (a ++ String "/" b) /\
  (Forall proper_part parts -> segments (join_path parts) = parts) /\
  setUriPath res (join_path (segments a)) = setUriPath res a.
Proof.
  split; [apply segments_app |].
  rewrite !setUriPath_segments.
  split.
  { change (String "/" a) with ("" ++ String "/" a)%string.
    rewrite segments_app. reflexivity. }
  split.
  { change (a ++ "/")%string with (a ++ String "/" "")%string.
    rewrite segments_app. cbn [segments split filter truthy].
    rewrite app_nil_r. reflexivity. }
  split.
  { rewrite !segments_app.
    change (String "/" b) with ("" ++ String "/" b)%string.
    rewrite segments_app. reflexivity. }
  split; [apply segments_join |].
  rewrite (segments_join (segments a) (segments_proper a)). reflexivity.
Qed.

(** ** Text given to the numeric encoders *)

Lemma digit_value_non_digit (c : ascii) :
  is_digit c = false -> digit_value 10 c = None.
Proof.
  unfold is_digit, digit_value. cbv zeta. intros H.
  apply andb_false_iff in H.
  assert (Hc : Z.of_N (N_of_ascii c) < 48 \/ 57 < Z.of_N (N_of_ascii c)).
  { destruct H as [H | H]; apply N.leb_gt in H; lia. }
  repeat (match goal with
          | |- context [Z.leb ?a ?b] => destruct (Z.leb_spec a b)
          | |- context [Z.ltb ?a ?b] => destruct (Z.ltb_spec a b)
          end; cbn [andb]);
    try reflexivity; lia.
Qed.

Lemma scan_digits_stop (s tail : string) :
  all_digits s = true -> stops_numeral tail = true ->
  forall acc, scan_digits 10 acc (s ++ tail) = scan_digits 10 acc s.
Proof.
  intros Hs Htail. induction s as [| c s IH]; intros acc.
  - destruct tail as [| c r]; [reflexivity |].
    cbn [stops_numeral] in Htail.
    apply andb_true_iff in Htail. destruct Htail as [Htail _].
    apply andb_true_iff in Htail. destruct Htail as [Hc _].
    apply negb_true_iff in Hc.
    cbn [append scan_digits]. rewrite (digit_value_non_digit c Hc).
    reflexivity.
  - cbn [all_digits] in Hs. apply andb_true_iff in Hs.
    destruct Hs as [Hc Hs].
    destruct (is_digit_inv c Hc) as (d & Hd & ->).
    cbn [append scan_digits]. rewrite digit_value_digit_char by exact Hd.
    apply IH, Hs.
Qed.

(** A text that begins with a digit, and not with [0x], is read in radix
    10 from its first character on. *)
Lemma StringToInt_digit_first (d : Z) (body : string) :
  0 <= d < 10 ->
  (forall r, body <> String "x" r /\ body <> String "X" r) ->
  StringToInt (String (Decimal.digit_char d) body)
  = match leading_digits 10 (String (Decimal.digit_char d) body) with
    | Some m => Int m
    | None => NaN
    end.
Proof.
  intros Hd Hbody.
  assert (Hgoal : forall s,
             match leading_digits 10 s with
             | Some m => Int (1 * m)
             | None => NaN
             end
             = match leading_digits 10 s with
               | Some m => Int m
               | None => NaN
               end).
  { intros s. destruct (leading_digits 10 s); [rewrite Z.mul_1_l |];
      reflexivity. }
  destruct body as [| c2 r2]; [digit_cases d; reflexivity |].
  destruct (Z.eq_dec d 0) as [-> | Hnz].
  - destruct (Hbody r2) as [Hx HX].
    destruct c2 as [[] [] [] [] [] [] [] []];
      try (exfalso; apply Hx; reflexivity);
      try (exfalso; apply HX; reflexivity);
      destruct r2 as [| c3 r3]; unfold StringToInt;
      cbn -[Z.mul leading_digits]; apply Hgoal.
  - destruct r2 as [| c3 r3]; digit_cases d; try lia; unfold StringToInt;
      cbn -[Z.mul leading_digits]; apply Hgoal.
Qed.

(** X6. The numeric encoders read the number off the front of a text
    and take no notice of what follows it: the numeral of an integer from
    0 to 65535 followed by any text that begins with neither a digit nor
    an [x] is encoded as that integer, as the numeral alone is. (After a
    0 an [x] starts a numeral of radix 16.) *)
Theorem uint16_encode_text (name : string) (n : Z) (tail : string) :
  name = STATUS_VALIDITY \/ name = STATUS_SERIAL ->
  0 <= n <= 65535 ->
  stops_numeral tail = true ->
  let p := registerOptions fresh_process in
  encode_option p name (PStr (Number_toString n ++ tail))
  = Some (Ok (uint16_be n)) /\
  encode_option p name (PStr (Number_toString n ++ tail))
  = encode_option p name (PNum n) /\
  decode_option p name (uint16_be n) = Some (Ok (PNum n)) /\
  encode_option p name (PStr "0x10") = Some (Ok (uint16_be 16)).
Proof.
  intros Hname Hn Htail p. subst p.
  unfold encode_option, decode_option.
  rewrite (registered_numeric_codec name Hname).
  cbn [option_map toBinary fromBinary uint16_codec].
  assert (Htext : Number_toString n = Decimal.of_nonneg n).
  { unfold Number_toString.
    destruct (Z.ltb_spec n 0) as [| _]; [lia |].
    destruct (Z.ltb_spec (Z.abs n) (10 ^ 21)) as [_ |]; [| lia].
    rewrite Z.abs_eq by lia. reflexivity. }
  destruct (of_nonneg_head n (proj1 Hn))
    as (d & rest & Hhead & Hd & Hrest & Hread).
  assert (Hparse : parseInt (PStr (Number_toString n ++ tail)) = Int n).
  { unfold parseInt, ToString. rewrite Htext, Hhead.
    change (String (Decimal.digit_char d) rest ++ tail)%string
      with (String (Decimal.digit_char d) (rest ++ tail)).
    rewrite StringToInt_digit_first; [| exact Hd |].
    - rewrite Hhead in Hread. unfold leading_digits in Hread |- *.
      rewrite digit_value_digit_char in Hread |- * by exact Hd.
      rewrite scan_digits_stop by assumption.
      injection Hread as ->. reflexivity.
    - intros r. destruct rest as [| c2 r2].
      + cbn [append]. destruct tail as [| c t]; [split; discriminate |].
        cbn [stops_numeral] in Htail.
        apply andb_true_iff in Htail. destruct Htail as [Htail HX].
        apply andb_true_iff in Htail. destruct Htail as [_ Hx].
        apply negb_true_iff in Hx, HX.
        split; intros Heq; injection Heq as -> _; discriminate.
      + cbn [all_digits] in Hrest. apply andb_true_iff in Hrest.
        destruct Hrest as [Hc2 _].
        cbn [append]. split; intros Heq; injection Heq as -> _;
          discriminate Hc2. }
  rewrite Hparse, parseInt_integer by lia.
  rewrite writeUInt16BE_in_range by exact Hn.
  rewrite readUInt16BE_uint16_be by exact Hn.
  repeat split.
Qed.

Lemma uint16_encode_text_witness :
  encode_option (registerOptions fresh_process) STATUS_VALIDITY
                (PStr "38400 s")
  = Some (Ok [x96; x00]).
Proof.
  exact (proj1 (uint16_encode_text STATUS_VALIDITY 38400 " s"
                  (or_introl eq_refl) ltac:(lia) eq_refl)).
Defined.

Section Further.

Context {Payload : Type} {serializer : Serializer Payload}.
Implicit Types (w : @World Payload) (d : @Device Payload).

(** ** What is sent, in full *)

Lemma handle_fresh (req : IncomingMessage) w :
  _handleStatusRequest req fresh_response w
  = Ok (set_wire (wire w ++ [Responded (now w)
                               (response_of (device w) (_serial (this w)))])
          (set__serial (_serial (this w) + 1) (console_log "GET /cit/s" w)),
        response_of (device w) (_serial (this w))).
Proof. reflexivity. Qed.












(** ** The timeout follows the latest announcement *)











(** ** The servers held and the servers made *)

Lemma same_servers_refl w : same_servers w w.
Proof. repeat split. Qed.

Lemma same_servers_trans w1 w2 w3 :
  same_servers w1 w2 -> same_servers w2 w3 -> same_servers w1 w3.
Proof.
  intros (Hs1 & Hm1 & He1 & Hc1) (Hs2 & Hm2 & He2 & Hc2).
  repeat split; congruence.
Qed.

Lemma same_servers_broadcast w : same_servers w (_broadcastStatus w).
Proof.
  destruct (broadcast_fields w)
    as (Hs & Hm & _ & _ & _ & _ & _ & He & Hc & _).
  repeat split; assumption.
Qed.

Lemma same_servers_iter (n : nat) w :
  same_servers w (Nat.iter n _broadcastStatus w).
Proof.
  induction n as [| n IH]; [apply same_servers_refl |].
  change (Nat.iter (S n) _broadcastStatus w)
    with (_broadcastStatus (Nat.iter n _broadcastStatus w)).
  eapply same_servers_trans; [exact IH | apply same_servers_broadcast].
Qed.

(** A property of the servers that [start], [stop] and the listen
    callbacks keep is kept by every step. *)
Lemma servers_step (P : World -> Prop) :
  (forall w w', same_servers w w' -> P w -> P w') ->
  (forall w, P w -> P (start w)) ->
  (forall w, P w -> P (stop w)) ->
  (forall ep err w, P w -> P (listen_callback ep err w)) ->
  forall w (ev : event), P w -> P (step w ev).
Proof.
  intros Hsame Hstart Hstop Hlisten.
  assert (Hfold : forall l w, P w -> P (fold_left run_continuation l w)).
  { induction l as [| c l IH]; intros w HP; cbn [fold_left]; [exact HP |].
    apply IH. unfold run_continuation, start_then, start_catch.
    destruct (outcome c) as [[e |] |]; [| | exact HP].
    - apply Hsame with (stop w); [repeat split | apply Hstop, HP].
    - apply Hsame with w; [| exact HP].
      eapply same_servers_trans; [apply same_servers_broadcast |].
      repeat split. }
  intros w ev HP.
  destruct ev as [| | d | ep req | ep err | | ms |]; cbn [step].
  - apply Hstart, HP.
  - apply Hstop, HP.
  - unfold emit_change. apply Hsame with w; [| exact HP].
    apply same_servers_trans with (set_device d w);
      [repeat split | apply same_servers_iter].
  - unfold deliver.
    destruct (nth_error (endpoints w) ep) as [e |]; [| exact HP].
    destruct (ep_state e), (request_listener e); try exact HP.
    unfold _requestHandler.
    destruct (String.eqb (method req) "GET" && String.eqb (url req) "/cit/s");
      [| exact HP].
    rewrite handle_fresh. apply Hsame with w; [repeat split | exact HP].
  - apply Hlisten, HP.
  - unfold drain. apply Hfold.
    apply Hsame with w; [repeat split | exact HP].
  - apply Hsame with w; [repeat split | exact HP].
  - unfold timer_expiry.
    destruct (find (fun t => snd t <=? now w) (timers w)) as [[h due] |];
      [| exact HP].
    apply Hsame with w; [| exact HP].
    eapply same_servers_trans; [| apply same_servers_broadcast].
    repeat split.
Qed.

Lemma servers_run (P : World -> Prop) :
  (forall w (ev : event), P w -> P (step w ev)) ->
  forall (evs : list event) w, P w -> P (run evs w).
Proof.
  intros Hstep evs. induction evs as [| ev evs IH]; intros w HP;
    cbn [run fold_left]; [exact HP |].
  apply IH, Hstep, HP.
Qed.

Lemma listen_callback_forward (ep : nat) (err : option error) w :
  forall j e,
    nth_error (endpoints w) j = Some e ->
    nth_error (endpoints (listen_callback ep err w)) j = Some e \/
    (ep_reported e = false /\
     nth_error (endpoints (listen_callback ep err w)) j
     = Some (reported err e)).
Proof.
  intros j e Hnth. unfold listen_callback.
  destruct (nth_error (endpoints w) ep) as [e1 |] eqn:E1; [| left; exact Hnth].
  destruct (ep_reported e1) eqn:Er; [left; exact Hnth |].
  cbn. rewrite nth_error_update_nth.
  destruct (Nat.eqb_spec ep j) as [-> |]; [| left; exact Hnth].
  rewrite Hnth in E1 |- *. injection E1 as <-.
  right. split; [exact Er | reflexivity].
Qed.

Lemma holds_same (h : option nat) (a : option string) w w' :
  endpoints w' = endpoints w -> holds h a w -> holds h a w'.
Proof. intros He Hh ep Hep. rewrite He. exact (Hh ep Hep). Qed.

Lemma holds_more (h : option nat) (a : option string) w w'
      (l : list Endpoint) :
  endpoints w' = endpoints w ++ l -> holds h a w -> holds h a w'.
Proof.
  intros He Hh ep Hep. destruct (Hh ep Hep) as (e & Hnth & Hrest).
  exists e. split; [| exact Hrest].
  rewrite He, nth_error_app1; [exact Hnth |].
  apply nth_error_Some. rewrite Hnth. discriminate.
Qed.

Lemma holds_new (a : option string) w' (eps l : list Endpoint) :
  endpoints w' = eps ++ fresh_endpoint a :: l ->
  holds (Some (List.length eps)) a w'.
Proof.
  intros He ep Hep. injection Hep as <-.
  exists (fresh_endpoint a).
  rewrite He, nth_error_app2, Nat.sub_diag by lia.
  repeat split. discriminate.
Qed.

Lemma handles_same w w' :
  same_servers w w' -> handles_inv w -> handles_inv w'.
Proof.
  intros (Hs & Hm & He & Hc) (H1 & H2 & H3). unfold handles_inv.
  rewrite Hs, Hm, Hc.
  split; [| split]; [| | exact H3]; eapply holds_same; eassumption.
Qed.

Lemma handles_start w : handles_inv w -> handles_inv (start w).
Proof.
  destruct w as [[s m serial t] ? ? ? eps ? ? ? ? ? ? ?].
  intros (H1 & H2 & H3). cbn [this server multicastServer] in H1, H2, H3.
  unfold handles_inv, start, _startServer, _startMulticastServer.
  destruct s as [s |], m as [m |]; cbn.
  - split; [| split].
    + eapply holds_same; [| exact H1]. reflexivity.
    + eapply holds_same; [| exact H2]. reflexivity.
    + split; intros H; discriminate H.
  - split; [| split].
    + eapply holds_more; [| exact H1]. reflexivity.
    + apply holds_new with (l := []). reflexivity.
    + split; intros H; discriminate H.
  - split; [| split].
    + apply holds_new with (l := []). reflexivity.
    + eapply holds_more; [| exact H2]. reflexivity.
    + split; intros H; discriminate H.
  - split; [| split].
    + apply holds_new
        with (l := [fresh_endpoint (Some COAP_MULTICAST_ADDRESS)]).
      cbn. rewrite <- app_assoc. reflexivity.
    + apply holds_new with (l := []). reflexivity.
    + split; intros H; discriminate H.
Qed.

Lemma handles_stop w : handles_inv (stop w).
Proof.
  destruct (stop_fields w) as (Hs & Hm & _ & _ & _ & _ & _ & _ & Hc & _).
  unfold handles_inv. rewrite Hs, Hm, Hc.
  split; [| split]; [intros ep H; discriminate H ..| split; reflexivity].
Qed.

Lemma holds_listen_callback (h : option nat) (a : option string)
      (ep : nat) (err : option error) w :
  holds h a w -> holds h a (listen_callback ep err w).
Proof.
  intros Hh j Hj. destruct (Hh j Hj) as (e & Hnth & Ha & Hopen & Hl).
  destruct (listen_callback_forward ep err w j e Hnth) as [Hsame | [_ Hrep]].
  - exists e. repeat split; assumption.
  - exists (reported err e). split; [exact Hrep |].
    split; [exact Ha |]. split; [| exact Hl].
    cbn. destruct (ep_state e), err; congruence.
Qed.

Lemma handles_listen_callback (ep : nat) (err : option error) w :
  handles_inv w -> handles_inv (listen_callback ep err w).
Proof.
  intros (H1 & H2 & H3).
  destruct (listen_callback_fields ep err w) as (Hthis & _ & _ & _ & Hc & _).
  unfold handles_inv. rewrite Hthis, Hc.
  split; [| split]; [| | exact H3]; apply holds_listen_callback; assumption.
Qed.

Lemma handles_step w (ev : event) : handles_inv w -> handles_inv (step w ev).
Proof.
  apply servers_step with (P := handles_inv).
  - apply handles_same.
  - apply handles_start.
  - intros w0 _. apply handles_stop.
  - apply handles_listen_callback.
Qed.

Lemma handles_init d : handles_inv (init d).
Proof.
  split; [| split]; [intros ep H; discriminate H ..| split; reflexivity].
Qed.

Lemma handles_reachable d (evs : list event) : handles_inv (run evs (init d)).
Proof.
  apply servers_run; [apply handles_step | apply handles_init].
Qed.

(** X9. In every state a run can reach: the field [server] holds a
    unicast server and the field [multicastServer] a server of the group
    224.0.1.187, never the same one, each made earlier, not closed and
    with the request handler attached; the two fields are set together and
    cleared together, and the device is subscribed to exactly while they
    are set; and every server ever made that is not held in a field is
    closed with its handler taken off. *)
Theorem held_servers d (evs : list event) :
  let w := run evs (init d) in
  (forall ep, server (this w) = Some ep ->
     exists e, nth_error (endpoints w) ep = Some e /\
               multicastAddress e = None /\
               ep_state e <> Closed /\ request_listener e = true) /\
  (forall ep, multicastServer (this w) = Some ep ->
     exists e, nth_error (endpoints w) ep = Some e /\
               multicastAddress e = Some "224.0.1.187"%string /\
               ep_state e <> Closed /\ request_listener e = true) /\
  (forall ep, server (this w) = Some ep ->
              multicastServer (this w) <> Some ep) /\
  (server (this w) = None <-> multicastServer (this w) = None) /\
  (server (this w) = None <-> change_listeners w = 0%nat) /\
  (forall ep e,
      nth_error (endpoints w) ep = Some e ->
      (shut e <->
       server (this w) <> Some ep /\ multicastServer (this w) <> Some ep)).
Proof.
  intros w.
  destruct (handles_reachable d evs) as (H1 & H2 & H3).
  fold w in H1, H2, H3.
  split; [exact H1 |]. split; [exact H2 |].
  split; [| split; [apply paired_reachable | split; [exact H3 |]]].
  - intros ep Hs Hm.
    destruct (H1 ep Hs) as (e1 & Hn1 & Ha1 & _).
    destruct (H2 ep Hm) as (e2 & Hn2 & Ha2 & _).
    rewrite Hn1 in Hn2. injection Hn2 as <-.
    rewrite Ha1 in Ha2. discriminate Ha2.
  - intros ep e Hnth. split.
    + intros [Hclosed _]. split; intros Hheld.
      * destruct (H1 ep Hheld) as (e1 & Hn1 & _ & Hopen & _).
        rewrite Hnth in Hn1. injection Hn1 as <-. contradiction.
      * destruct (H2 ep Hheld) as (e2 & Hn2 & _ & Hopen & _).
        rewrite Hnth in Hn2. injection Hn2 as <-. contradiction.
    + intros [Hs Hm].
      destruct (ep_inv_reachable d evs ep e Hnth) as [Hshut | [H | H]];
        [exact Hshut | contradiction ..].
Qed.

(** ** Servers only age *)

Lemma later_refl (e : Endpoint) : later e e.
Proof. repeat split; auto. Qed.

Lemma later_trans (e1 e2 e3 : Endpoint) :
  later e1 e2 -> later e2 e3 -> later e1 e3.
Proof.
  intros (Ha1 & Hs1 & Hl1 & Hr1) (Ha2 & Hs2 & Hl2 & Hr2).
  split; [congruence |]. split; [| split; auto].
  destruct Hs2 as [Hs2 | [Hs2 | [Hb2 Hs2]]].
  - rewrite Hs2. exact Hs1.
  - right. left. exact Hs2.
  - destruct Hs1 as [Hs1 | [Hs1 | [Hb1 [Hs1 | Hs1]]]]; try congruence.
    right. right. split; [congruence | exact Hs2].
Qed.

Lemma later_closed_endpoint (e : Endpoint) : later e (closed_endpoint e).
Proof. repeat split; auto. Qed.

Lemma later_reported (err : option error) (e : Endpoint) :
  later e (reported err e).
Proof.
  split; [reflexivity |]. split; [| split; [auto | reflexivity]].
  cbn. destruct (ep_state e), err; auto.
Qed.

Lemma later_shut (e e' : Endpoint) : later e e' -> shut e -> shut e'.
Proof.
  intros (_ & Hs & Hl & _) [Hclosed Hoff]. split; [| auto].
  destruct Hs as [Hs | [Hs | [Hb _]]]; congruence.
Qed.

Lemma grows_refl w : grows w w.
Proof. intros ep e Hnth. exists e. split; [exact Hnth | apply later_refl]. Qed.

Lemma grows_trans w1 w2 w3 : grows w1 w2 -> grows w2 w3 -> grows w1 w3.
Proof.
  intros H12 H23 ep e1 Hn1.
  destruct (H12 ep e1 Hn1) as (e2 & Hn2 & Hl12).
  destruct (H23 ep e2 Hn2) as (e3 & Hn3 & Hl23).
  exists e3. split; [exact Hn3 | eapply later_trans; eassumption].
Qed.

Lemma grows_same w w' : same_servers w w' -> grows w w'.
Proof.
  intros (_ & _ & He & _) ep e Hnth. exists e.
  rewrite He. split; [exact Hnth | apply later_refl].
Qed.

Lemma start_endpoints w :
  exists l, endpoints (start w) = endpoints w ++ l /\
            (List.length l <= 2)%nat /\
            (server (this w) <> None -> multicastServer (this w) <> None ->
             l = []).
Proof.
  destruct w as [[s m serial t] ? ? ? eps ? ? ? ? ? ? ?].
  unfold start, _startServer, _startMulticastServer.
  destruct s as [s |], m as [m |]; cbn.
  - exists []. rewrite app_nil_r. repeat split. simpl. lia.
  - eexists. split; [reflexivity |]. split; [simpl; lia | congruence].
  - eexists. split; [reflexivity |]. split; [simpl; lia | congruence].
  - eexists. rewrite <- app_assoc. split; [reflexivity |].
    split; [simpl; lia | congruence].
Qed.

Lemma grows_start w : grows w (start w).
Proof.
  destruct (start_endpoints w) as (l & He & _).
  intros ep e Hnth. exists e. split; [| apply later_refl].
  rewrite He, nth_error_app1; [exact Hnth |].
  apply nth_error_Some. rewrite Hnth. discriminate.
Qed.

Lemma grows_stop w : grows w (stop w).
Proof.
  destruct (stop_fields w) as (_ & _ & _ & _ & _ & _ & _ & He & _).
  intros ep e Hnth. rewrite He, !nth_error_close_at, Hnth.
  destruct (match multicastServer (this w) with
            | Some i => Nat.eqb i ep
            | None => false
            end),
           (match server (this w) with
            | Some i => Nat.eqb i ep
            | None => false
            end); cbn; eexists; (split; [reflexivity |]).
  - eapply later_trans; apply later_closed_endpoint.
  - apply later_closed_endpoint.
  - apply later_closed_endpoint.
  - apply later_refl.
Qed.

Lemma grows_listen_callback (ep : nat) (err : option error) w :
  grows w (listen_callback ep err w).
Proof.
  intros j e Hnth.
  destruct (listen_callback_forward ep err w j e Hnth) as [Hsame | [_ Hrep]].
  - exists e. split; [exact Hsame | apply later_refl].
  - exists (reported err e). split; [exact Hrep | apply later_reported].
Qed.

Lemma grows_step w0 w (ev : event) : grows w0 w -> grows w0 (step w ev).
Proof.
  apply servers_step with (P := grows w0).
  - intros w1 w2 Hsame H. eapply grows_trans; [exact H |].
    apply grows_same, Hsame.
  - intros w1 H. eapply grows_trans; [exact H | apply grows_start].
  - intros w1 H. eapply grows_trans; [exact H | apply grows_stop].
  - intros ep err w1 H. eapply grows_trans; [exact H |].
    apply grows_listen_callback.
Qed.

Lemma grows_run (evs : list event) w : grows w (run evs w).
Proof.
  apply servers_run with (P := grows w);
    [apply grows_step | apply grows_refl].
Qed.

(** X10. Whatever happens later, from any state: a server that was made
    keeps its handle and its group; its state only moves forward (binding,
    then listening or failed, then closed); a request handler taken off is
    never put back. So a server that [stop()] has shut stays shut through
    every later [start()], and a request that still arrives at it is never
    answered: nothing is sent and nothing changes. *)
Theorem servers_only_age w (evs : list event) (ep : nat) (e : Endpoint) :
  nth_error (endpoints w) ep = Some e ->
  exists e',
    nth_error (endpoints (run evs w)) ep = Some e' /\
    multicastAddress e' = multicastAddress e /\
    (ep_state e' = ep_state e \/ ep_state e' = Closed \/
     (ep_state e = Binding /\
      (ep_state e' = Listening \/ ep_state e' = Failed))) /\
    (request_listener e = false -> request_listener e' = false) /\
    (shut e ->
     shut e' /\
     forall req, step (run evs w) (Inbound ep req) = run evs w).
Proof.
  intros Hnth.
  destruct (grows_run evs w ep e Hnth) as (e' & Hnth' & Hlater).
  exists e'. split; [exact Hnth' |].
  pose proof Hlater as (Ha & Hs & Hl & _).
  split; [exact Ha |]. split; [exact Hs |]. split; [exact Hl |].
  intros Hshut. pose proof (later_shut e e' Hlater Hshut) as [Hclosed Hoff].
  split; [split; assumption |].
  intros req. cbn [step]. unfold deliver. rewrite Hnth', Hclosed.
  reflexivity.
Qed.

(** ** A change of the device *)






(** ** The timeout, 30000 ms after 30000 ms *)




(** ** Starting *)










(** ** The options of a sent message, encoded *)



End Further.

(** * Further runs of the sample server *)


(** A server that ran and was stopped, then started again: the two
    servers of the first start stay shut, and a request that still
    reaches one of them is not answered. *)
Lemma servers_only_age_witness :
  let w :=
    run [CallStart; ListenCallback 0 None; ListenCallback 1 None;
         Microtasks; CallStop] (init sample_device) in
  let w' :=
    run [CallStart; ListenCallback 2 None; ListenCallback 3 None;
         Microtasks] w in
  option_map ep_state (nth_error (endpoints w') 0) = Some Closed /\
  step w' (Inbound 0 sample_get) = w'.
Proof.
  cbv zeta.
  destruct (servers_only_age
              (run [CallStart; ListenCallback 0 None; ListenCallback 1 None;
                    Microtasks; CallStop] (init sample_device))
              [CallStart; ListenCallback 2 None; ListenCallback 3 None;
               Microtasks] 0
              {| multicastAddress := None; ep_state := Closed;
                 ep_reported := true; request_listener := false |}
              eq_refl)
    as (e' & Hnth & _ & _ & _ & Hshut).
  destruct (Hshut (conj eq_refl eq_refl)) as [[Hclosed _] Hdeaf].
  split; [rewrite Hnth; cbn; rewrite Hclosed; reflexivity | apply Hdeaf].
Defined.




